(** * Anthropic manifold pipeline: message normalisation and response adaptation

    A shallow embedding of [examples/pipelines/providers/anthropic_manifold_pipeline.py]
    (class [Pipeline]): the JSON-like values the pipeline receives, Python's
    subscripting and truthiness on them, the normalisation loop of [pipe],
    [process_image], [get_completion] and the generator [stream_response],
    followed by the properties of the specification proved about them. *)

From Stdlib Require Import Ascii String QArith Lqa.
From stdpp Require Import gmap strings list fin_maps pretty.

Set Warnings "-register-all".

(** ** Values

    Messages, options and provider responses are JSON documents held in Python
    objects: [None], booleans, integers, floats, strings, lists and
    string-keyed dictionaries.  Characters of a [string] stand for Python code
    points. *)

Inductive value : Type :=
| VNone
| VBool (b : bool)
| VInt (z : Z)
| VFloat (q : Q)
| VStr (s : string)
| VList (l : list value)
| VDict (d : gmap string value).

(** ** Exceptions *)

Inductive key : Type :=
| KStr (s : string)
| KInt (z : Z).

Inductive exn : Type :=
| KeyError (k : key)
| TypeError (msg : string)
| AttributeError (msg : string)
| IndexError (msg : string)
| ValueError (msg : string)
| JSONDecodeError (msg : string)
| RequestException (msg : string)
| Exception (msg : string)
| RecursionError (msg : string).

(** [str(e)], as interpolated by [f"Error: {e}"].  A [KeyError] prints the
    [repr] of the missing key. *)
Definition str_exn (e : exn) : string :=
  match e with
  | KeyError (KStr k) => "'" +:+ k +:+ "'"
  | KeyError (KInt z) => pretty z
  | TypeError msg | AttributeError msg | IndexError msg | ValueError msg
  | JSONDecodeError msg | RequestException msg | Exception msg
  | RecursionError msg => msg
  end.

(** A computation that returns or raises. *)
Inductive result (A : Type) : Type :=
| Ok (a : A)
| Raise (e : exn).
Arguments Ok {A} a.
Arguments Raise {A} e.

#[global] Instance result_ret : MRet result := @Ok.
#[global] Instance result_bind : MBind result := λ A B f m,
  match m with
  | Ok a => f a
  | Raise e => Raise e
  end.

#[global] Instance result_fmap : FMap result := λ A B f m,
  match m with
  | Ok a => Ok (f a)
  | Raise e => Raise e
  end.

(** [for x in l: s = f(s, x)], leaving the loop at the first exception. *)
Fixpoint for_each {S A : Type} (f : S → A → result S) (l : list A) (s : S) : result S :=
  match l with
  | [] => Ok s
  | x :: l' => s' ← f s x; for_each f l' s'
  end.

(** ** Python primitives on values *)

Definition type_name (v : value) : string :=
  match v with
  | VNone => "NoneType"
  | VBool _ => "bool"
  | VInt _ => "int"
  | VFloat _ => "float"
  | VStr _ => "str"
  | VList _ => "list"
  | VDict _ => "dict"
  end.

(** [v == "literal"] *)
Definition eq_str (v : value) (s : string) : bool :=
  match v with
  | VStr t => String.eqb t s
  | _ => false
  end.

(** [bool(v)] *)
Definition truthy (v : value) : bool :=
  match v with
  | VNone => false
  | VBool b => b
  | VInt z => negb (Z.eqb z 0)
  | VFloat q => negb (Qeq_bool q 0)
  | VStr s => negb (String.eqb s "")
  | VList l => match l with [] => false | _ => true end
  | VDict d => negb (bool_decide (d = ∅))
  end.

(** [v[k]] for a string key [k] *)
Definition getitem (v : value) (k : string) : result value :=
  match v with
  | VDict d =>
      match d !! k with
      | Some x => Ok x
      | None => Raise (KeyError (KStr k))
      end
  | VList _ => Raise (TypeError "list indices must be integers or slices, not str")
  | VStr _ => Raise (TypeError "string indices must be integers, not 'str'")
  | _ => Raise (TypeError ("'" +:+ type_name v +:+ "' object is not subscriptable"))
  end.

(** [v[0]] *)
Definition getitem0 (v : value) : result value :=
  match v with
  | VList (x :: _) => Ok x
  | VList [] => Raise (IndexError "list index out of range")
  | VStr (String c _) => Ok (VStr (String c ""))
  | VStr "" => Raise (IndexError "string index out of range")
  | VDict _ => Raise (KeyError (KInt 0))
  | _ => Raise (TypeError ("'" +:+ type_name v +:+ "' object is not subscriptable"))
  end.

(** [sub in s] on strings *)
Fixpoint is_substring (sub s : string) : bool :=
  String.prefix sub s ||
  match s with
  | "" => false
  | String _ s' => is_substring sub s'
  end.

(** [k in v] for a string [k] *)
Definition contains (k : string) (v : value) : result bool :=
  match v with
  | VDict d => Ok (bool_decide (is_Some (d !! k)))
  | VList l => Ok (existsb (λ x, eq_str x k) l)
  | VStr s => Ok (is_substring k s)
  | _ => Raise (TypeError ("argument of type '" +:+ type_name v +:+ "' is not iterable"))
  end.

(** [len(v)] *)
Definition len (v : value) : result nat :=
  match v with
  | VStr s => Ok (String.length s)
  | VList l => Ok (length l)
  | VDict d => Ok (size d)
  | _ => Raise (TypeError ("object of type '" +:+ type_name v +:+ "' has no len()"))
  end.

(** [s.split(sep)]: never empty, one more field than separators. *)
Fixpoint split (sep : Ascii.ascii) (s : string) : list string :=
  match s with
  | "" => [""]
  | String c s' =>
      if Ascii.eqb c sep then "" :: split sep s'
      else match split sep s' with
           | h :: t => String c h :: t
           | [] => [String c ""]
           end
  end.

(** [s.split(sep, 1)] unpacked into two names: [None] when [sep] does not
    occur, in which case the unpacking raises. *)
Fixpoint split_once (sep : Ascii.ascii) (s : string) : option (string * string) :=
  match s with
  | "" => None
  | String c s' =>
      if Ascii.eqb c sep then Some ("", s')
      else '(h, t) ← split_once sep s'; Some (String c h, t)
  end.

(** [v.startswith(p)] *)
Definition startswith (v : value) (p : string) : result bool :=
  match v with
  | VStr s => Ok (String.prefix p s)
  | _ => Raise (AttributeError ("'" +:+ type_name v +:+ "' object has no attribute 'startswith'"))
  end.


(** ** The provider, seen from the pipeline

    [requests.post] is the only contact with the outside.  A response carries
    its status, its body as text, what [response.json()] makes of the body and
    the server-sent events [sseclient] reads from it; for each event, [data] is
    the raw body and [parsed] what [json.loads] makes of it: a
    [JSONDecodeError] when the body is not JSON, the decoded value, a
    [RecursionError] when the body is nested too deeply for the decoder, or
    the plain [ValueError] of an interpreter that limits the digits of an
    integer literal. *)

Inductive parsed : Type :=
| NotJSON (msg : string)
| JSON (v : value)
| TooDeep (msg : string)
| TooLong (msg : string).

Record sse_event : Type := SSE { data : string; loads : parsed }.

Record response : Type := Response {
  status_code : Z;
  text : string;
  json : parsed;
  events : list sse_event }.

Record request : Type := Request {
  req_url : string;
  req_headers : gmap string string;
  req_json : gmap string value;
  req_stream : bool }.

(** What [print] writes while a stream is read. *)
Inductive log_line : Type :=
| FailedToParse (event_data : string)
| UnexpectedStructure (e : exn)
| FullData (v : value).

(** The effects of an invocation: the requests posted and the lines printed,
    oldest first. *)
Record world : Type := World { sent : list request; stdout : list log_line }.

Definition json_of (p : parsed) : result value :=
  match p with
  | NotJSON msg => Raise (JSONDecodeError msg)
  | JSON v => Ok v
  | TooDeep msg => Raise (RecursionError msg)
  | TooLong msg => Raise (ValueError msg)
  end.

(** ** The pipeline *)

Record Pipeline : Type := { ANTHROPIC_API_KEY : string }.

Definition url : string := "https://api.anthropic.com/v1/messages".

Definition headers (self : Pipeline) : gmap string string :=
  {[ "anthropic-version" := "2023-06-01";
     "content-type" := "application/json";
     "x-api-key" := ANTHROPIC_API_KEY self ]}.

(** Local variables of the normalisation loop of [pipe]. *)
Record locals : Type := Locals {
  processed_messages : list value;
  processed_content : list value;
  image_count : nat;
  total_image_size : Q;
  cached : bool }.

Definition append_content (part : value) (st : locals) : locals :=
  Locals (processed_messages st) (processed_content st ++ [part])
         (image_count st) (total_image_size st) (cached st).

Definition set_cached (st : locals) : locals :=
  Locals (processed_messages st) (processed_content st)
         (image_count st) (total_image_size st) true.

Definition caching_model : string := "claude-3-5-sonnet-20241022".

Definition ephemeral : value := VDict {[ "type" := VStr "ephemeral" ]}.

Definition count_error : exn := ValueError "Maximum of 5 images per API call exceeded".
Definition size_error : exn := ValueError "Total size of images exceeds 100 MB limit".

Definition size_limit : Q := 100 * 1024 * 1024.

(** The dictionaries [process_image] builds. *)
Definition image_block (source : value) : value :=
  VDict {[ "type" := VStr "image"; "source" := source ]}.

Definition base64_source (media_type base64_data : string) : value :=
  VDict {[ "type" := VStr "base64";
           "media_type" := VStr media_type;
           "data" := VStr base64_data ]}.

Definition url_source (u : value) : value :=
  VDict {[ "type" := VStr "url"; "url" := u ]}.

(** [process_image]: a [data:image] URI becomes an inline base64 source, any
    other URL a linked source. *)
Definition process_image (image_data : value) : result value :=
  u ← getitem image_data "url";
  inline ← startswith u "data:image";
  if inline : bool then
    match u with
    | VStr s =>
        match split_once "," s with
        | Some (mime_type, base64_data) =>
            match split ":" mime_type !! 1%nat with
            | Some after =>
                let media_type := default "" (head (split ";" after)) in
                Ok (image_block (base64_source media_type base64_data))
            | None => Raise (IndexError "list index out of range")
            end
        | None => Raise (ValueError "not enough values to unpack (expected 2, got 1)")
        end
    | _ => Raise (AttributeError ("'" +:+ type_name u +:+ "' object has no attribute 'split'"))
    end
  else
    Ok (image_block (url_source u)).

(** The estimated size of a processed image: three quarters of the length of
    an inline payload, nothing for a link.  Python computes it in floating
    point; a length times 3 divided by 4 and the sums of at most five of them
    below the limit are exact there, so rationals give the same comparisons. *)
Definition image_size_of (processed_image : value) : result Q :=
  source ← getitem processed_image "source";
  source_type ← getitem source "type";
  if eq_str source_type "base64"
  then d ← getitem source "data"; n ← len d; Ok (inject_Z (Z.of_nat n) * 3 / 4)%Q
  else Ok 0%Q.

Section Pipeline.

(** [tiktoken]'s encoder for "gpt-4o", abstracted to the number of tokens it
    gives a text. *)
Variable tokenizer : string → nat.

(** The provider: what [requests.post] returns or raises for a request. *)
Variable server : request → result response.

Variable self : Pipeline.

(** [get_tokens] *)
Definition get_tokens (text : value) : result nat :=
  match text with
  | VStr s => Ok (tokenizer s)
  | _ => Raise (TypeError "expected string or buffer")
  end.

(** [model_id == "claude-3-5-sonnet-20241022" and self.get_tokens(text) >= 1024] *)
Definition cache_check (model_id : string) (text : value) : result bool :=
  if String.eqb model_id caching_model
  then n ← get_tokens text; Ok (1024 <=? n)
  else Ok false.

(** The text block of a part or of a plain content, with the [cached] flag
    it leaves. *)
Definition text_block (model_id : string) (text : value) (st : locals)
  : result (value * locals) :=
  let text_content : gmap string value := {[ "type" := VStr "text"; "text" := text ]} in
  c ← cache_check model_id text;
  if c : bool
  then Ok (VDict (<["cache_control" := ephemeral]> text_content), set_cached st)
  else Ok (VDict text_content, st).

(** One turn of [for item in message["content"]]. *)
Definition process_item (model_id : string) (st : locals) (item : value) : result locals :=
  ty ← getitem item "type";
  if eq_str ty "text" then
    t ← getitem item "text";
    '(text_content, st) ← text_block model_id t st;
    Ok (append_content text_content st)
  else if eq_str ty "image_url" then
    if 5 <=? image_count st then Raise count_error
    else
      image_data ← getitem item "image_url";
      processed_image ← process_image image_data;
      let st := append_content processed_image st in
      image_size ← image_size_of processed_image;
      let total := (total_image_size st + image_size)%Q in
      if negb (Qle_bool total size_limit) then Raise size_error
      else Ok (Locals (processed_messages st) (processed_content st)
                      (S (image_count st)) total (cached st))
  else Ok st.

(** One turn of [for message in messages]. *)
Definition process_message (model_id : string) (st : locals) (message : gmap string value)
  : result locals :=
  let st := Locals (processed_messages st) [] (image_count st) (total_image_size st) (cached st) in
  st ← match message !! "content" with
       | Some (VList items) => for_each (process_item model_id) items st
       | _ =>
           let t := default (VStr "") (message !! "content") in
           '(text_content, st) ← text_block model_id t st;
           Ok (Locals (processed_messages st) [text_content]
                      (image_count st) (total_image_size st) (cached st))
       end;
  role ← getitem (VDict message) "role";
  Ok (Locals (processed_messages st
                ++ [VDict {[ "role" := role; "content" := VList (processed_content st) ]}])
             (processed_content st) (image_count st) (total_image_size st) (cached st)).

Definition initial : locals := Locals [] [] 0 0 false.

(** The loop of [pipe] over the messages left by [pop_system_message]. *)
Definition normalize (model_id : string) (messages : list (gmap string value))
  : result locals :=
  for_each (process_message model_id) messages initial.

(** Modelled from the spec: [pop_system_message] is imported from
    [utils.pipelines.main], which is not among the sources.  The spec (4.1,
    step 1) has it remove a first message of role [system] and capture its
    content as the system text, joined to a plain string if the content is a
    sequence of parts; otherwise the system text is absent and the list is
    unchanged.  The spec does not say how parts are joined, so the joining is
    a parameter. *)
Variable join_parts : list value → string.

Definition system_text (content : option value) : string :=
  match content with
  | Some (VStr s) => s
  | Some (VList parts) => join_parts parts
  | _ => ""
  end.

Definition is_system (message : gmap string value) : bool :=
  match message !! "role" with
  | Some r => eq_str r "system"
  | None => false
  end.

Definition pop_system_message (messages : list (gmap string value))
  : option string * list (gmap string value) :=
  match messages with
  | m :: rest =>
      if is_system m then (Some (system_text (m !! "content")), rest)
      else (None, messages)
  | [] => (None, [])
  end.

(** [requests.post]: the request is recorded, the provider answers. *)
Definition post (r : request) (w : world) : world * result response :=
  (World (sent w ++ [r]) (stdout w), server r).

Definition provider_error (r : response) : exn :=
  Exception ("Error: " +:+ pretty (status_code r) +:+ " - " +:+ text r).

(** [get_completion] *)
Definition get_completion (payload : gmap string value) (w : world)
  : world * result value :=
  let '(w, r) := post (Request url (headers self) payload false) w in
  (w,
   response ← r;
   if (status_code response =? 200)%Z then
     res ← json_of (json response);
     has ← contains "content" res;
     nonempty ← (if has : bool then c ← getitem res "content"; Ok (truthy c) else Ok false);
     if nonempty : bool then
       c ← getitem res "content";
       first ← getitem0 c;
       getitem first "text"
     else Ok (VStr "")
   else Raise (provider_error response)).

(** What one event asks of the loop of [stream_response]. *)
Inductive signal : Type :=
| Next
| Yield (fragment : value)
| Break.

(** The [if]/[elif] chain on a decoded event. *)
Definition on_event (data : value) : result signal :=
  ty ← getitem data "type";
  if eq_str ty "content_block_start" then
    content_block ← getitem data "content_block";
    t ← getitem content_block "text";
    Ok (Yield t)
  else if eq_str ty "content_block_delta" then
    delta ← getitem data "delta";
    t ← getitem delta "text";
    Ok (Yield t)
  else if eq_str ty "message_stop" then Ok Break
  else Ok Next.

(** A generator read to its end: what it yielded, in order, and the
    exception that ended it, if one did. *)
Record drained : Type := Drained { yielded : list value; raised : option exn }.

Definition yield (v : value) (r : list log_line * drained) : list log_line * drained :=
  (r.1, Drained (v :: yielded r.2) (raised r.2)).

(** [for event in client.events()] with its [try].  Of what [json.loads]
    raises the first handler takes the [JSONDecodeError] and none takes the
    [RecursionError] or the plain [ValueError]; the chain after it raises
    none of the three, so the two handlers are told apart by where the
    exception comes from. *)
Fixpoint events_loop (evs : list sse_event) (out : list log_line)
  : list log_line * drained :=
  match evs with
  | [] => (out, Drained [] None)
  | event :: rest =>
      match loads event with
      | NotJSON _ => events_loop rest (out ++ [FailedToParse (data event)])
      | JSON d =>
          match on_event d with
          | Ok (Yield fragment) => yield fragment (events_loop rest out)
          | Ok Next => events_loop rest out
          | Ok Break => (out, Drained [] None)
          | Raise (KeyError k) =>
              events_loop rest (out ++ [UnexpectedStructure (KeyError k); FullData d])
          | Raise e => (out, Drained [] (Some e))
          end
      | TooDeep msg => (out, Drained [] (Some (RecursionError msg)))
      | TooLong msg => (out, Drained [] (Some (ValueError msg)))
      end
  end.

(** [stream_response], a generator function: nothing of its body runs when
    it is called.  This is the body, run by the consumer that reads the
    generator to its end. *)
Definition stream_response (payload : gmap string value) (w : world) : world * drained :=
  let '(w, r) := post (Request url (headers self) payload true) w in
  match r with
  | Raise e => (w, Drained [] (Some e))
  | Ok response =>
      if (status_code response =? 200)%Z then
        let '(out, d) := events_loop (events response) (stdout w) in
        (World (sent w) out, d)
      else (w, Drained [] (Some (provider_error response)))
  end.

(** What [pipe] returns: a value, or the generator object made by calling
    [stream_response] on a payload, whose body has not started. *)
Inductive returned : Type :=
| Value (v : value)
| Generator (payload : gmap string value).

(** The consumer reading what [pipe] returned to its end. *)
Definition drain (r : returned) (w : world) : world * drained :=
  match r with
  | Value _ => (w, Drained [] None)
  | Generator payload => stream_response payload w
  end.

(** [for key in ["user", "chat_id", "title"]: body.pop(key, None)] *)
Definition pop_keys (body : gmap string value) : gmap string value :=
  foldl (λ b k, delete k b) body ["user"; "chat_id"; "title"].

(** The payload dictionary. *)
Definition make_payload (model_id : string) (system_message : option string)
    (processed : list value) (body : gmap string value) : gmap string value :=
  let system : gmap string value :=
    match system_message with
    | Some s => if negb (String.eqb s "") then {[ "system" := VStr s ]} else ∅
    | None => ∅
    end in
  {[ "model" := VStr model_id;
     "messages" := VList processed;
     "max_tokens" := default (VInt 4096) (body !! "max_tokens");
     "temperature" := default (VFloat (8 # 10)) (body !! "temperature");
     "top_k" := default (VInt 40) (body !! "top_k");
     "top_p" := default (VFloat (9 # 10)) (body !! "top_p");
     "stop_sequences" := default (VList []) (body !! "stop");
     "stream" := default (VBool false) (body !! "stream") ]} ∪ system.

(** The [try] block of [pipe] up to the payload. *)
Definition prepare (model_id : string) (messages : list (gmap string value))
    (body : gmap string value) : result (gmap string value) :=
  let '(system_message, messages) := pop_system_message messages in
  st ← normalize model_id messages;
  Ok (make_payload model_id system_message (processed_messages st) body).

(** [pipe].  The options dictionary [body] is the caller's object, changed in
    place: its final contents are returned next to the result. *)
Definition pipe (user_message model_id : string) (messages : list (gmap string value))
    (body : gmap string value) (w : world) : world * gmap string value * returned :=
  let body := pop_keys body in
  let '(w, r) :=
    match prepare model_id messages body with
    | Raise e => (w, Raise e)
    | Ok payload =>
        if truthy (default (VBool false) (body !! "stream"))
        then (w, Ok (Generator payload))
        else let '(w, r) := get_completion payload w in (w, Value <$> r)
    end in
  match r with
  | Ok x => (w, body, x)
  | Raise e => (w, body, Value (VStr ("Error: " +:+ str_exn e)))
  end.

End Pipeline.

(** * Notions of the specification *)

(** The text part the pipeline sends for a text [t], with or without the
    cache-eligibility marker. *)
Definition text_part (t : value) (marked : bool) : value :=
  VDict (if marked
         then <["cache_control" := ephemeral]> {[ "type" := VStr "text"; "text" := t ]}
         else {[ "type" := VStr "text"; "text" := t ]}).

(** The cache-eligibility rule: the caching model, and at least 1024 tokens. *)
Definition cacheable (tokenizer : string → nat) (model_id s : string) : bool :=
  String.eqb model_id caching_model && (1024 <=? tokenizer s).

(** A part carries the marker when it has the [cache_control] entry. *)
Definition carries_marker (part : value) : Prop :=
  getitem part "cache_control" = Ok ephemeral.

(** The type tag of a content part. *)
Definition tag_of (item : value) : option value :=
  match item with
  | VDict d => d !! "type"
  | _ => None
  end.

(** A part with a type tag that is neither [text] nor [image_url]. *)
Definition unrecognized (item : value) : bool :=
  match tag_of item with
  | Some ty => negb (eq_str ty "text") && negb (eq_str ty "image_url")
  | None => false
  end.

(** A part tagged [image_url]. *)
Definition is_image (item : value) : bool :=
  match tag_of item with
  | Some ty => eq_str ty "image_url"
  | None => false
  end.

(** The URL of an image part. *)
Definition image_url_of (item : value) : option string :=
  match item with
  | VDict d =>
      match d !! "image_url" with
      | Some (VDict image_data) =>
          match image_data !! "url" with
          | Some (VStr u) => Some u
          | _ => None
          end
      | _ => None
      end
  | _ => None
  end.

(** The base64 payload of an inline image: what follows the first comma of a
    [data:image] URI. *)
Definition inline_payload (u : string) : option string :=
  if String.prefix "data:image" u then snd <$> split_once "," u else None.

(** Estimated size: base64 payload length times 3/4 for an inline image, 0
    for a linked one. *)
Definition url_size (u : string) : Q :=
  match inline_payload u with
  | Some p => inject_Z (Z.of_nat (String.length p)) * 3 / 4
  | None => 0
  end.

Definition estimated_size (item : value) : Q :=
  match image_url_of item with
  | Some u => url_size u
  | None => 0
  end.

(** The input data model.  A part is a text part with a string, an image part
    with a URL that, when it starts with [data:image], has the comma of a data
    URI, or a part of another type; a message has a role and a string or a
    sequence of parts for content. *)
Definition well_formed_url (u : string) : bool :=
  if String.prefix "data:image" u
  then match split_once "," u with Some _ => true | None => false end
  else true.

Definition well_formed_part (item : value) : bool :=
  match tag_of item with
  | Some ty =>
      if eq_str ty "text" then
        match getitem item "text" with
        | Ok (VStr _) => true
        | _ => false
        end
      else if eq_str ty "image_url" then
        match image_url_of item with
        | Some u => well_formed_url u
        | None => false
        end
      else true
  | None => false
  end.

Definition parts_of (m : gmap string value) : list value :=
  match m !! "content" with
  | Some (VList items) => items
  | _ => []
  end.

Definition well_formed_message (m : gmap string value) : bool :=
  match m !! "role", m !! "content" with
  | Some _, Some (VList items) => forallb well_formed_part items
  | Some _, Some (VStr _) => true
  | _, _ => false
  end.

(** The image parts of a message list, their number and their cumulative
    estimated size. *)
Definition image_parts (msgs : list (gmap string value)) : list value :=
  List.filter is_image (msgs ≫= parts_of).

Definition Qsum (l : list Q) : Q := foldr Qplus 0%Q l.

Definition image_number (msgs : list (gmap string value)) : nat :=
  length (image_parts msgs).

Definition image_bytes (msgs : list (gmap string value)) : Q :=
  Qsum (estimated_size <$> image_parts msgs).

(** [ImageLimitExceeded]: one of the two errors of the image limits. *)
Definition image_limit_exceeded (e : exn) : Prop :=
  e = count_error ∨ e = size_error.

(** The loop's invariant on its two counters. *)
Definition within_limits (st : locals) : Prop :=
  image_count st ≤ 5 ∧ (0 <= total_image_size st)%Q ∧ (total_image_size st <= size_limit)%Q.

(** The events of the provider's stream, by what the loop of
    [stream_response] makes of them. *)
Inductive event_kind : Type :=
| ContentBlockStart (t : string)
| ContentBlockDelta (t : string)
| MessageStop
| OtherEvent.

Definition text_field (v : option value) : option string :=
  match v with
  | Some (VDict d) =>
      match d !! "text" with
      | Some (VStr t) => Some t
      | _ => None
      end
  | _ => None
  end.

(** A well-formed event: a JSON object with a type and, for the two content
    events, the text they carry. *)
Definition kind_of (event : sse_event) : option event_kind :=
  match loads event with
  | JSON (VDict d) =>
      match d !! "type" with
      | Some ty =>
          if eq_str ty "content_block_start"
          then ContentBlockStart <$> text_field (d !! "content_block")
          else if eq_str ty "content_block_delta"
          then ContentBlockDelta <$> text_field (d !! "delta")
          else if eq_str ty "message_stop" then Some MessageStop
          else Some OtherEvent
      | None => None
      end
  | _ => None
  end.

(** The event table of the specification: the fragments a sequence of
    well-formed events emits. *)
Fixpoint emitted (ks : list event_kind) : list string :=
  match ks with
  | [] => []
  | ContentBlockStart t :: ks | ContentBlockDelta t :: ks => t :: emitted ks
  | MessageStop :: _ => []
  | OtherEvent :: ks => emitted ks
  end.

(** The response text: the texts carried by the events before the end of the
    message, concatenated. *)
Definition carried_text (k : event_kind) : option string :=
  match k with
  | ContentBlockStart t | ContentBlockDelta t => Some t
  | MessageStop | OtherEvent => None
  end.

Fixpoint before_stop (ks : list event_kind) : list event_kind :=
  match ks with
  | [] => []
  | MessageStop :: _ => []
  | k :: ks => k :: before_stop ks
  end.

Definition response_text (ks : list event_kind) : string :=
  String.concat "" (omap carried_text (before_stop ks)).

Definition fragment_text (v : value) : string :=
  match v with
  | VStr s => s
  | _ => ""
  end.

(** The events the two handlers of the loop take: a body that is not JSON,
    or a JSON object without a key the loop reads from it, its [type] or, for
    a content event, its [content_block] or [delta] or the [text] of that
    object. *)
Definition lacks_text (v : option value) : bool :=
  match v with
  | None => true
  | Some (VDict d) => match d !! "text" with None => true | Some _ => false end
  | Some _ => false
  end.

Definition lacks_field (d : gmap string value) : bool :=
  match d !! "type" with
  | None => true
  | Some ty =>
      if eq_str ty "content_block_start" then lacks_text (d !! "content_block")
      else if eq_str ty "content_block_delta" then lacks_text (d !! "delta")
      else false
  end.

Definition absorbed (event : sse_event) : bool :=
  match loads event with
  | NotJSON _ => true
  | JSON (VDict d) => lacks_field d
  | JSON _ | TooDeep _ | TooLong _ => false
  end.

(** A malformed event, in the words of the specification: a body that does
    not parse as JSON, or a parsed body missing an expected field, its type
    or, for a content event, the text of its content block or of its delta. *)
Definition expected_text (v : value) (k : string) : option value :=
  match v with
  | VDict d =>
      match d !! k with
      | Some (VDict c) => c !! "text"
      | _ => None
      end
  | _ => None
  end.

Definition malformed (event : sse_event) : bool :=
  match loads event with
  | NotJSON _ | TooDeep _ | TooLong _ => true
  | JSON v =>
      match tag_of v with
      | None => true
      | Some ty =>
          if eq_str ty "content_block_start"
          then match expected_text v "content_block" with None => true | Some _ => false end
          else if eq_str ty "content_block_delta"
          then match expected_text v "delta" with None => true | Some _ => false end
          else false
      end
  end.

(** The contract of the completion, in the words of the specification: a
    success status is a 2xx status, and the first text block of a content is
    the text of its first block of type [text]. *)
Definition success_status (status : Z) : bool := (200 <=? status)%Z && (status <? 300)%Z.

Fixpoint first_text_block (content : list value) : option value :=
  match content with
  | [] => None
  | block :: rest =>
      match tag_of block with
      | Some ty =>
          if eq_str ty "text"
          then match getitem block "text" with Ok t => Some t | Raise _ => None end
          else first_text_block rest
      | None => first_text_block rest
      end
  end.

(** The events of the provider's protocol. *)
Definition content_block_start (t : string) : value :=
  VDict {[ "type" := VStr "content_block_start"; "index" := VInt 0;
           "content_block" := VDict {[ "type" := VStr "text"; "text" := VStr t ]} ]}.

Definition content_block_delta (t : string) : value :=
  VDict {[ "type" := VStr "content_block_delta"; "index" := VInt 0;
           "delta" := VDict {[ "type" := VStr "text_delta"; "text" := VStr t ]} ]}.

Definition message_stop : value := VDict {[ "type" := VStr "message_stop" ]}.

(** A message with a role and a plain string for content. *)
Definition plain_message (m : gmap string value) (rs : value * string) : Prop :=
  m !! "role" = Some rs.1 ∧ m !! "content" = Some (VStr rs.2).

(** A normalised message: a role and a sequence of parts. *)
Definition normalized (role : value) (parts : list value) : value :=
  VDict {[ "role" := role; "content" := VList parts ]}.

(** One token per character, and a text of 1024 characters. *)
Definition char_tokenizer (s : string) : nat := String.length s.

Definition long_text : string := String.concat "" (replicate 1024 "a").

(** The option keys [pipe] strips. *)
Definition stripped_keys : list string := ["user"; "chat_id"; "title"].

(** * Concrete inputs *)

Definition default_self : Pipeline := {| ANTHROPIC_API_KEY := "your-api-key-here" |}.

(** Joining the parts of a system message by concatenating their texts. *)
Definition concat_texts (parts : list value) : string :=
  String.concat "" (omap (λ p, text_field (Some p)) parts).

(** A provider that answers every request with status 500. *)
Definition overloaded (r : request) : result response :=
  Ok (Response 500 "overloaded" (NotJSON "Expecting value: line 1 column 1 (char 0)") []).

(** A provider that answers every request with one text block, streamed in
    two fragments when read as events. *)
Definition greeting (r : request) : result response :=
  Ok (Response 200 "..."
        (JSON (VDict {[ "content" := VList [VDict {[ "type" := VStr "text";
                                                     "text" := VStr "Hello world" ]}] ]}))
        [SSE "..." (JSON (content_block_start "Hello"));
         SSE "..." (JSON (content_block_delta " world"));
         SSE "..." (JSON message_stop)]).

Definition text_item (t : string) : value :=
  VDict {[ "type" := VStr "text"; "text" := VStr t ]}.

Definition image_item (u : string) : value :=
  VDict {[ "type" := VStr "image_url"; "image_url" := VDict {[ "url" := VStr u ]} ]}.

Definition audio_item : value :=
  VDict {[ "type" := VStr "input_audio"; "input_audio" := VDict ∅ ]}.

Definition user_says (content : value) : gmap string value :=
  {[ "role" := VStr "user"; "content" := content ]}.

Definition system_says (content : value) : gmap string value :=
  {[ "role" := VStr "system"; "content" := content ]}.

Definition png : string := "data:image/png;base64,AAAA".

Definition five_images : list (gmap string value) :=
  [user_says (VList [text_item "compare"; image_item png; image_item png;
                     image_item "https://example.com/a.png"]);
   user_says (VStr "and these");
   user_says (VList [image_item png; audio_item; image_item png])].

Definition current_model : string := "claude-3-7-sonnet-latest".

(** * Models and configuration

    The rest of the class: the model list, and the attributes [__init__] sets,
    among them the headers [update_headers] derives from the valves. *)

(** [get_anthropic_models] *)
Definition get_anthropic_models : list value :=
  [VDict {[ "id" := VStr "claude-3-7-sonnet-latest"; "name" := VStr "claude-3.7-sonnet" ]};
   VDict {[ "id" := VStr "claude-sonnet-4-20250514"; "name" := VStr "claude-4-sonnet" ]};
   VDict {[ "id" := VStr "claude-opus-4-20250514"; "name" := VStr "claude-4-opus" ]}].

(** [pipelines] *)
Definition pipelines : list value := get_anthropic_models.

(** The attributes of a pipeline object. *)
Record instance : Type := Instance {
  self_type : string;
  self_id : string;
  self_name : string;
  self_valves : Pipeline;
  self_url : string;
  self_headers : gmap string string }.

(** [update_headers] *)
Definition update_headers (self : instance) : instance :=
  Instance (self_type self) (self_id self) (self_name self) (self_valves self)
           (self_url self) (headers (self_valves self)).

(** [__init__]; [env] is what the environment holds for [ANTHROPIC_API_KEY]. *)
Definition init (env : option string) : instance :=
  update_headers
    (Instance "manifold" "anthropic" "anthropic/"
              {| ANTHROPIC_API_KEY := default "your-api-key-here" env |}
              "https://api.anthropic.com/v1/messages" ∅).

(** [on_valves_updated] *)
Definition on_valves_updated (self : instance) : instance := update_headers self.

(** The host assigning new valves: [self.valves = v]. *)
Definition set_valves (v : Pipeline) (self : instance) : instance :=
  Instance (self_type self) (self_id self) (self_name self) v
           (self_url self) (self_headers self).

(** What happens to a pipeline object after [__init__]: the host assigns
    valves, or announces that it has. *)
Inductive lifecycle : Type :=
| SetValves (v : Pipeline)
| ValvesUpdated.

Definition step (self : instance) (o : lifecycle) : instance :=
  match o with
  | SetValves v => set_valves v self
  | ValvesUpdated => on_valves_updated self
  end.

(** * Further notions *)

(** A provider that answers every request with status 200 and a body that is
    not JSON. *)
Definition garbled (r : request) : result response :=
  Ok (Response 200 "<html>" (NotJSON "Expecting value: line 1 column 1 (char 0)") []).

(** A tokenizer that counts nothing. *)
Definition no_tokens (s : string) : nat := 0.

(** A [content_block_start] event whose content block is [null], and an
    event whose body is nested too deeply for the decoder. *)
Definition null_block : sse_event :=
  SSE "..." (JSON (VDict {[ "type" := VStr "content_block_start"; "index" := VInt 0;
                            "content_block" := VNone ]})).

Definition too_deep : sse_event :=
  SSE "[[[[..." (TooDeep "maximum recursion depth exceeded while decoding a JSON array from a unicode string").

(** A content whose first block is a tool call and whose second is a text,
    a provider that answers every request with it, and one that answers
    every request with status 201 and a text. *)
Definition tool_then_text : list value :=
  [VDict {[ "type" := VStr "tool_use"; "name" := VStr "lookup" ]};
   VDict {[ "type" := VStr "text"; "text" := VStr "hi" ]}].

Definition tool_first (r : request) : result response :=
  Ok (Response 200 "..." (JSON (VDict {[ "content" := VList tool_then_text ]})) []).

Definition created (r : request) : result response :=
  Ok (Response 201 "created"
        (JSON (VDict {[ "content" := VList [VDict {[ "type" := VStr "text";
                                                     "text" := VStr "hi" ]}] ]}))
        []).

(** Whether a character occurs in a string, and the part of a string before
    the first occurrence of a character. *)
Fixpoint occurs (c : Ascii.ascii) (s : string) : bool :=
  match s with
  | "" => false
  | String a s' => Ascii.eqb a c || occurs c s'
  end.

Fixpoint upto (sep : Ascii.ascii) (s : string) : string :=
  match s with
  | "" => ""
  | String c s' => if Ascii.eqb c sep then "" else String c (upto sep s')
  end.

(** A part tagged [text]; a part the loop makes something of. *)
Definition is_text (item : value) : bool :=
  match tag_of item with
  | Some ty => eq_str ty "text"
  | None => false
  end.

Definition recognized (item : value) : bool := is_text item || is_image item.

(** A normalised part is the image of an input part: the text part of its
    text, marked as the cache check says, or the block [process_image] makes of
    its image. *)
Definition part_matches (tokenizer : string → nat) (model_id : string)
    (item part : value) : Prop :=
  if is_text item
  then ∃ t marked, getitem item "text" = Ok t ∧
                   cache_check tokenizer model_id t = Ok marked ∧
                   part = text_part t marked
  else ∃ image_data, getitem item "image_url" = Ok image_data ∧
                     process_image image_data = Ok part.

(** A normalised message is the image of an input message: same role, and
    the images of its recognised parts in order, or the single text part of
    its content when that is not a list. *)
Definition message_matches (tokenizer : string → nat) (model_id : string)
    (m : gmap string value) (out : value) : Prop :=
  ∃ role parts,
    m !! "role" = Some role ∧ out = normalized role parts ∧
    match m !! "content" with
    | Some (VList items) =>
        Forall2 (part_matches tokenizer model_id) (List.filter recognized items) parts
    | content =>
        ∃ marked, cache_check tokenizer model_id (default (VStr "") content) = Ok marked ∧
                  parts = [text_part (default (VStr "") content) marked]
    end.

(** The options [pipe] reads from [body], and the keys of a payload. *)
Definition option_keys : list string :=
  ["max_tokens"; "temperature"; "top_k"; "top_p"; "stop"; "stream"].

Definition payload_keys : gset string :=
  {[ "model"; "messages"; "max_tokens"; "temperature"; "top_k"; "top_p";
     "stop_sequences"; "stream" ]}.

(** The identifiers of the listed models. *)
Definition model_ids : list string :=
  omap (λ m, match getitem m "id" with Ok (VStr i) => Some i | _ => None end) pipelines.

(** Prepending fragments to what the rest of a stream gives. *)
Definition emit_first (fragments : list value) (r : list log_line * drained)
  : list log_line * drained :=
  (r.1, Drained (fragments ++ yielded r.2) (raised r.2)).

(** * Properties *)

(** ** Loops and dictionaries *)

Lemma for_each_app {S A : Type} (f : S → A → result S) (l1 l2 : list A) (s : S) :
  for_each f (l1 ++ l2) s = s' ← for_each f l1 s; for_each f l2 s'.
Proof.
  revert s. induction l1 as [|x l1 IH]; intros s; simpl; [done|].
  destruct (f s x) as [s'|e]; simpl; [apply IH | done].
Qed.

Lemma getitem_dict (d : gmap string value) (k : string) (v : value) :
  d !! k = Some v → getitem (VDict d) k = Ok v.
Proof. intros H. simpl. by rewrite H. Qed.

Lemma getitem_missing (d : gmap string value) (k : string) :
  d !! k = None → getitem (VDict d) k = Raise (KeyError (KStr k)).
Proof. intros H. simpl. by rewrite H. Qed.

Lemma tag_of_Some (item ty : value) :
  tag_of item = Some ty → getitem item "type" = Ok ty.
Proof. destruct item; simpl; try done. intros H. by rewrite H. Qed.

Lemma carries_marker_text_part (t : value) (marked : bool) :
  carries_marker (text_part t marked) ↔ marked = true.
Proof. unfold carries_marker. destruct marked; simpl; split; done. Qed.

(** ** Strings and sizes *)

Ltac refold_sizes :=
  change (list_fmap value Q estimated_size) with (fmap (M:=list) estimated_size) in *.

Lemma split_nonempty (sep : Ascii.ascii) (s : string) : ∃ h t, split sep s = h :: t.
Proof.
  induction s as [|c s (h & t & IH)]; simpl; [by eauto|].
  destruct (Ascii.eqb c sep); [by eauto|]. rewrite IH. by eauto.
Qed.

Lemma prefix_cons_inv (c : Ascii.ascii) (p s : string) :
  String.prefix (String c p) s = true → ∃ s', s = String c s' ∧ String.prefix p s' = true.
Proof.
  destruct s as [|b s']; simpl; [done|].
  destruct (ascii_dec c b) as [->|]; [by eauto|done].
Qed.

(** The part of a [data:image] URI before its first comma has a second field
    when split on colons, so [process_image] never fails on its [[1]]. *)
Lemma mime_type_field (u mime_type base64_data : string) :
  String.prefix "data:image" u = true →
  split_once "," u = Some (mime_type, base64_data) →
  ∃ after, split ":" mime_type !! 1%nat = Some after.
Proof.
  intros Hp Hs.
  do 5 (apply prefix_cons_inv in Hp as (? & -> & Hp)).
  simpl in Hs. destruct (split_once "," _) as [[h t]|]; simplify_eq/=.
  destruct (split_nonempty ":" h) as (a & l & ->). by eauto.
Qed.

Lemma url_size_nonneg (u : string) : (0 <= url_size u)%Q.
Proof.
  unfold url_size. destruct (inline_payload u) as [p|]; [|apply Qle_refl].
  assert (0 <= inject_Z (Z.of_nat (String.length p)))%Q as H.
  { change 0%Q with (inject_Z 0). rewrite <- Zle_Qle. lia. }
  revert H. generalize (inject_Z (Z.of_nat (String.length p))). intros x Hx.
  unfold Qdiv. change (/ 4)%Q with (1 # 4)%Q. lra.
Qed.

Lemma estimated_size_nonneg (item : value) : (0 <= estimated_size item)%Q.
Proof.
  unfold estimated_size. destruct (image_url_of item); [apply url_size_nonneg|apply Qle_refl].
Qed.

Lemma Qsum_nonneg (l : list Q) : Forall (λ q, (0 <= q)%Q) l → (0 <= Qsum l)%Q.
Proof. induction 1 as [|q l Hq _ IH]; simpl; [apply Qle_refl|lra]. Qed.

Lemma sizes_nonneg (items : list value) : (0 <= Qsum (estimated_size <$> items))%Q.
Proof.
  apply Qsum_nonneg, Forall_fmap, Forall_forall. intros item _. apply estimated_size_nonneg.
Qed.

Lemma Qsum_app (l1 l2 : list Q) : (Qsum (l1 ++ l2) == Qsum l1 + Qsum l2)%Q.
Proof. induction l1 as [|q l1 IH]; simpl; lra. Qed.

(** Every estimated size is a whole number of bytes times 3/4. *)
Lemma estimated_size_quarters (item : value) :
  ∃ n : nat, (estimated_size item == inject_Z (Z.of_nat n) * (3 # 4))%Q.
Proof.
  unfold estimated_size, url_size. destruct (image_url_of item) as [u|]; [|by exists 0%nat].
  destruct (inline_payload u) as [p|]; [|by exists 0%nat].
  exists (String.length p). unfold Qdiv. change (/ 4)%Q with (1 # 4)%Q.
  generalize (inject_Z (Z.of_nat (String.length p))). intros x. lra.
Qed.

Lemma sizes_quarters (items : list value) :
  ∃ n : nat, (Qsum (estimated_size <$> items) == inject_Z (Z.of_nat n) * (3 # 4))%Q.
Proof.
  induction items as [|item items [n IH]]; [by exists 0%nat|].
  destruct (estimated_size_quarters item) as [k Hk]. exists (k + n)%nat.
  rewrite fmap_cons. simpl. rewrite Hk, IH, Nat2Z.inj_add, inject_Z_plus.
  generalize (inject_Z (Z.of_nat k)), (inject_Z (Z.of_nat n)). intros x y. lra.
Qed.

Lemma exceeds_spec (total : Q) :
  negb (Qle_bool total size_limit) = true ↔ (size_limit < total)%Q.
Proof.
  rewrite negb_true_iff. split.
  - intros H. apply Qnot_le_lt. intros Hle. apply Qle_bool_iff in Hle. congruence.
  - intros H. destruct (Qle_bool total size_limit) eqn:Hb; [|done].
    apply Qle_bool_iff in Hb. lra.
Qed.

Lemma image_size_of_base64 (media_type base64_data : string) :
  image_size_of (image_block (base64_source media_type base64_data))
  = Ok (inject_Z (Z.of_nat (String.length base64_data)) * 3 / 4)%Q.
Proof. reflexivity. Qed.

Lemma image_size_of_url (u : value) : image_size_of (image_block (url_source u)) = Ok 0%Q.
Proof. reflexivity. Qed.

(** [process_image] on a well-formed URL, with the size the loop then reads
    off the block. *)
Lemma process_image_well_formed (image_data : gmap string value) (u : string) :
  image_data !! "url" = Some (VStr u) → well_formed_url u = true →
  ∃ block, process_image (VDict image_data) = Ok block ∧
           image_size_of block = Ok (url_size u).
Proof.
  intros Hu Hwf. unfold process_image, well_formed_url, url_size, inline_payload in *.
  simpl. rewrite Hu. simpl.
  destruct (String.prefix "data:image" u) eqn:Hp.
  - destruct (split_once "," u) as [[mime_type base64_data]|] eqn:Hs; [|done].
    destruct (mime_type_field _ _ _ Hp Hs) as [after Hafter]. rewrite Hafter.
    eexists. split; [done|]. apply image_size_of_base64.
  - eexists. split; [done|]. apply image_size_of_url.
Qed.

(** ** The event loop *)

Lemma events_loop_yielded (evs : list sse_event) (out out' : list log_line) :
  (events_loop evs out).2 = (events_loop evs out').2.
Proof.
  revert out out'. induction evs as [|event evs IH]; intros out out'; simpl; [done|].
  destruct (loads event) as [msg|d|msg|msg]; [apply IH| |done..].
  destruct (on_event d) as [[|fragment|]|[]]; simpl; try done; try apply IH.
  by rewrite (IH out out').
Qed.

(** What follows a prefix of events is handled the same whenever it is
    handled the same on its own. *)
Lemma events_loop_after (pre l1 l2 : list sse_event) :
  (∀ out, events_loop l1 out = events_loop l2 out) →
  ∀ out, events_loop (pre ++ l1) out = events_loop (pre ++ l2) out.
Proof.
  intros H. induction pre as [|event pre IH]; intros out; simpl; [apply H|].
  destruct (loads event) as [msg|d|msg|msg]; [apply IH| |done..].
  destruct (on_event d) as [[|fragment|]|[]]; simpl; try done; try apply IH.
  by rewrite IH.
Qed.

Lemma events_loop_after_yielded (pre l1 l2 : list sse_event) :
  (∀ out out', (events_loop l1 out).2 = (events_loop l2 out').2) →
  ∀ out out', (events_loop (pre ++ l1) out).2 = (events_loop (pre ++ l2) out').2.
Proof.
  intros H. induction pre as [|event pre IH]; intros out out'; simpl; [apply H|].
  destruct (loads event) as [msg|d|msg|msg]; [apply IH| |done..].
  destruct (on_event d) as [[|fragment|]|[]]; simpl; try done; try apply IH.
  by rewrite (IH out out').
Qed.

Lemma text_field_getitem (v : option value) (k t : string) (d : gmap string value) :
  d !! k = v → text_field v = Some t →
  (x ← getitem (VDict d) k; getitem x "text") = Ok (VStr t).
Proof.
  intros <-. unfold text_field. simpl.
  destruct (d !! k) as [[| | | | | |d']|]; try done. simpl.
  destruct (d' !! "text") as [[| | | |t'| |]|]; try done. by intros [= ->].
Qed.

(** One well-formed event, by its kind. *)
Lemma events_loop_kind (event : sse_event) (k : event_kind) (rest : list sse_event)
    (out : list log_line) :
  kind_of event = Some k →
  events_loop (event :: rest) out =
  match k with
  | ContentBlockStart t | ContentBlockDelta t => yield (VStr t) (events_loop rest out)
  | MessageStop => (out, Drained [] None)
  | OtherEvent => events_loop rest out
  end.
Proof.
  unfold kind_of. simpl.
  destruct (loads event) as [msg|[| | | | | |d]|msg|msg]; try done.
  destruct (d !! "type") as [ty|] eqn:Hty; [|done].
  unfold on_event. rewrite (getitem_dict _ _ _ Hty). simpl.
  destruct (eq_str ty "content_block_start").
  { destruct (text_field _) as [t|] eqn:Ht; [|done]. intros [= <-].
    pose proof (text_field_getitem _ "content_block" t d eq_refl Ht) as H.
    simpl in H. destruct (d !! "content_block") as [cb|]; [|done].
    simpl in H |- *. by destruct (getitem cb "text") as [x|]; simplify_eq/=. }
  destruct (eq_str ty "content_block_delta").
  { destruct (text_field _) as [t|] eqn:Ht; [|done]. intros [= <-].
    pose proof (text_field_getitem _ "delta" t d eq_refl Ht) as H.
    simpl in H. destruct (d !! "delta") as [cb|]; [|done].
    simpl in H |- *. by destruct (getitem cb "text") as [x|]; simplify_eq/=. }
  destruct (eq_str ty "message_stop"); by intros [= <-].
Qed.

(** A stream of well-formed events emits what the event table says, and ends
    without an exception. *)
Lemma events_loop_emitted (evs : list sse_event) (ks : list event_kind) (out : list log_line) :
  Forall2 (λ event k, kind_of event = Some k) evs ks →
  events_loop evs out = (out, Drained (VStr <$> emitted ks) None).
Proof.
  induction 1 as [|event k evs ks Hk _ IH]; [done|].
  rewrite (events_loop_kind _ _ _ _ Hk).
  destruct k; try done; by rewrite IH.
Qed.

Lemma emitted_before_stop (ks : list event_kind) :
  emitted ks = omap carried_text (before_stop ks).
Proof. induction ks as [|[] ks IH]; simpl; by rewrite ?IH. Qed.

Lemma concat_fragments (l : list string) :
  String.concat "" (fragment_text <$> (VStr <$> l)) = String.concat "" l.
Proof. rewrite <- list_fmap_compose. f_equal. by apply list_fmap_id. Qed.

(** One event the handlers take: the lines it prints, and on to the next
    event. *)
Lemma events_loop_malformed (event : sse_event) :
  absorbed event = true →
  ∃ lines, lines ≠ [] ∧
    ∀ rest out, events_loop (event :: rest) out = events_loop rest (out ++ lines).
Proof.
  unfold absorbed. destruct (loads event) as [msg|d|msg|msg] eqn:Hl; [| |done..].
  { intros _. exists [FailedToParse (data event)]. split; [done|].
    intros. simpl. by rewrite Hl. }
  destruct d as [| | | | | |d]; try done. unfold lacks_field.
  assert (∀ k, on_event (VDict d) = Raise (KeyError (KStr k)) →
    ∃ lines, lines ≠ [] ∧
      ∀ rest out, events_loop (event :: rest) out = events_loop rest (out ++ lines)) as Hkey.
  { intros k Hk. exists [UnexpectedStructure (KeyError (KStr k)); FullData (VDict d)].
    split; [done|]. intros. simpl. by rewrite Hl, Hk. }
  unfold on_event in Hkey. simpl in Hkey.
  destruct (d !! "type") as [ty|]; [|intros _; by apply (Hkey "type")].
  simpl in Hkey. unfold lacks_text.
  destruct (eq_str ty "content_block_start").
  { destruct (d !! "content_block") as [[| | | | | |cb]|]; try done;
      [|intros _; by apply (Hkey "content_block")].
    simpl in Hkey. destruct (cb !! "text"); [done|]. intros _. by apply (Hkey "text"). }
  destruct (eq_str ty "content_block_delta"); [|done].
  destruct (d !! "delta") as [[| | | | | |cb]|]; try done;
    [|intros _; by apply (Hkey "delta")].
  simpl in Hkey. destruct (cb !! "text"); [done|]. intros _. by apply (Hkey "text").
Qed.

Section Properties.

Variable tokenizer : string → nat.
Variable server : request → result response.
Variable self : Pipeline.
Variable join_parts : list value → string.

#[local] Arguments Nat.leb : simpl never.
#[local] Arguments process_image : simpl never.
#[local] Arguments image_size_of : simpl never.

Lemma cacheable_iff (model_id s : string) :
  cacheable tokenizer model_id s = true ↔ model_id = caching_model ∧ 1024 ≤ tokenizer s.
Proof.
  unfold cacheable. rewrite andb_true_iff, String.eqb_eq, Nat.leb_le. done.
Qed.

Lemma cache_check_str (model_id s : string) :
  cache_check tokenizer model_id (VStr s) = Ok (cacheable tokenizer model_id s).
Proof.
  unfold cache_check, cacheable. destruct (String.eqb model_id caching_model); done.
Qed.

Lemma text_block_str (model_id s : string) (st : locals) :
  text_block tokenizer model_id (VStr s) st =
  Ok (text_part (VStr s) (cacheable tokenizer model_id s),
      if cacheable tokenizer model_id s then set_cached st else st).
Proof.
  unfold text_block. rewrite cache_check_str. simpl.
  destruct (cacheable tokenizer model_id s); done.
Qed.

Lemma process_item_text (model_id s : string) (st : locals) (item : gmap string value) :
  item !! "type" = Some (VStr "text") → item !! "text" = Some (VStr s) →
  process_item tokenizer model_id st (VDict item) =
  Ok (append_content (text_part (VStr s) (cacheable tokenizer model_id s))
        (if cacheable tokenizer model_id s then set_cached st else st)).
Proof.
  intros Hty Ht. unfold process_item.
  simpl. rewrite Hty. simpl. rewrite Ht. simpl.
  rewrite text_block_str. done.
Qed.

Lemma process_item_unrecognized (model_id : string) (st : locals) (u : value) :
  unrecognized u = true → process_item tokenizer model_id st u = Ok st.
Proof.
  unfold unrecognized. destruct (tag_of u) as [ty|] eqn:Hty; [|done].
  intros [H1 H2]%andb_true_iff.
  unfold process_item. rewrite (tag_of_Some _ _ Hty). simpl.
  apply negb_true_iff in H1, H2. by rewrite H1, H2.
Qed.

Lemma process_message_plain (model_id s : string) (role : value) (st : locals)
    (m : gmap string value) :
  m !! "role" = Some role → m !! "content" = Some (VStr s) →
  process_message tokenizer model_id st m =
  Ok (Locals (processed_messages st
                ++ [VDict {[ "role" := role;
                             "content" := VList [text_part (VStr s) (cacheable tokenizer model_id s)] ]}])
             [text_part (VStr s) (cacheable tokenizer model_id s)]
             (image_count st) (total_image_size st)
             (cached st || cacheable tokenizer model_id s)).
Proof.
  intros Hr Hc. unfold process_message. rewrite Hc. simpl.
  rewrite text_block_str. simpl. rewrite Hr. simpl.
  destruct (cacheable tokenizer model_id s); simpl; [|by rewrite orb_false_r].
  by rewrite orb_true_r.
Qed.

(** C3.  A text part with text [s] is normalised to a text part with the
    same text, which carries the cache-eligibility marker exactly when the
    model is the caching model and the tokenizer gives [s] at least 1024
    tokens; for any other model the marker is never set.  The same holds for
    a message whose content is the plain string [s]. *)
Theorem cache_marker_rule (model_id s : string) (st : locals) (item : gmap string value) :
  item !! "type" = Some (VStr "text") → item !! "text" = Some (VStr s) →
  ∃ part st',
    process_item tokenizer model_id st (VDict item) = Ok st' ∧
    processed_content st' = processed_content st ++ [part] ∧
    getitem part "type" = Ok (VStr "text") ∧
    getitem part "text" = Ok (VStr s) ∧
    (carries_marker part ↔ model_id = caching_model ∧ 1024 ≤ tokenizer s) ∧
    (model_id ≠ caching_model → getitem part "cache_control" = Raise (KeyError (KStr "cache_control"))) ∧
    (∀ (m : gmap string value) role,
        m !! "role" = Some role → m !! "content" = Some (VStr s) →
        ∃ st'', process_message tokenizer model_id st m = Ok st'' ∧
                processed_content st'' = [part]).
Proof.
  intros Hty Ht.
  exists (text_part (VStr s) (cacheable tokenizer model_id s)).
  eexists. split; [by apply process_item_text|].
  split; [by destruct (cacheable tokenizer model_id s)|].
  split; [by destruct (cacheable tokenizer model_id s)|].
  split; [by destruct (cacheable tokenizer model_id s)|].
  split; [by rewrite carries_marker_text_part, cacheable_iff|].
  split.
  - intros Hne. destruct (cacheable tokenizer model_id s) eqn:Hc; [|done].
    apply cacheable_iff in Hc as [? _]. done.
  - intros m role Hr Hc. eexists. split; [by apply process_message_plain|done].
Qed.

Lemma pipe_body (user_message model_id : string) (messages : list (gmap string value))
    (body : gmap string value) (w : world) :
  (pipe tokenizer server self join_parts user_message model_id messages body w).1.2
  = pop_keys body.
Proof.
  unfold pipe. destruct (prepare _ _ _ _ _) as [payload|e]; [|done].
  destruct (truthy _); [done|].
  destruct (get_completion _ _ _ _) as [w' [v|e]]; done.
Qed.

Lemma pop_keys_lookup (body : gmap string value) (k : string) :
  pop_keys body !! k = if decide (k ∈ stripped_keys) then None else body !! k.
Proof.
  unfold pop_keys, stripped_keys. simpl. rewrite !lookup_delete.
  destruct (decide (k ∈ _)) as [Hin|Hout].
  - rewrite !elem_of_cons, elem_of_nil in Hin.
    destruct Hin as [->|[->|[->|[]]]]; by repeat case_decide.
  - rewrite !not_elem_of_cons in Hout. destruct Hout as (? & ? & ? & _).
    by repeat (case_decide; [congruence|]).
Qed.

(** C9.  Whatever the invocation does, the caller's options dictionary
    comes back with the keys [user], [chat_id] and [title] removed and every
    other key as it was; the payload is built from the dictionary so
    changed. *)
Theorem pipe_strips_options (user_message model_id : string)
    (messages : list (gmap string value)) (body : gmap string value) (w : world) (k : string) :
  let out := pipe tokenizer server self join_parts user_message model_id messages body w in
  out.1.2 = delete "title" (delete "chat_id" (delete "user" body)) ∧
  out.1.2 !! k = (if decide (k ∈ stripped_keys) then None else body !! k) ∧
  out = pipe tokenizer server self join_parts user_message model_id messages out.1.2 w ∧
  (∀ payload, out.2 = Generator payload →
      prepare tokenizer join_parts model_id messages out.1.2 = Ok payload).
Proof.
  simpl. rewrite !pipe_body. split; [done|]. split; [apply pop_keys_lookup|]. split.
  - assert (pop_keys (pop_keys body) = pop_keys body) as Hidem.
    { apply map_eq. intros i. rewrite !pop_keys_lookup. by case_decide. }
    unfold pipe. by rewrite Hidem.
  - intros payload. unfold pipe.
    destruct (prepare _ _ _ _ _) as [payload'|e]; [|done].
    destruct (truthy _); [by intros [= ->]|].
    destruct (get_completion _ _ _ _) as [w' [v|e]]; done.
Qed.

Lemma for_each_drop_unrecognized (model_id : string) (st : locals) (pre post : list value)
    (u : value) :
  unrecognized u = true →
  for_each (process_item tokenizer model_id) (pre ++ u :: post) st
  = for_each (process_item tokenizer model_id) (pre ++ post) st.
Proof.
  intros Hu. rewrite !for_each_app.
  destruct (for_each _ pre st) as [st'|e]; simpl; [|done].
  by rewrite process_item_unrecognized.
Qed.

Lemma for_each_all_unrecognized (model_id : string) (st : locals) (items : list value) :
  forallb unrecognized items = true →
  for_each (process_item tokenizer model_id) items st = Ok st.
Proof.
  induction items as [|u items IH]; simpl; [done|].
  intros [Hu Hrest]%andb_true_iff. rewrite process_item_unrecognized by done.
  simpl. by apply IH.
Qed.

(** C10.  A part whose type tag is neither [text] nor [image_url] leaves
    the loop's variables as they were: no part is added, nothing is raised,
    and the image count and the cumulative size are unchanged, so that the
    message normalises as if the part were absent.  A message all of whose
    parts are such normalises to an empty content. *)
Theorem unrecognized_parts_dropped (model_id : string) :
  (∀ st u, unrecognized u = true →
      process_item tokenizer model_id st u = Ok st) ∧
  (∀ st (m : gmap string value) pre u post, unrecognized u = true →
      m !! "content" = Some (VList (pre ++ u :: post)) →
      process_message tokenizer model_id st m
      = process_message tokenizer model_id st (<["content" := VList (pre ++ post)]> m)) ∧
  (∀ st (m : gmap string value) items role,
      forallb unrecognized items = true →
      m !! "content" = Some (VList items) → m !! "role" = Some role →
      process_message tokenizer model_id st m
      = Ok (Locals (processed_messages st
                      ++ [VDict {[ "role" := role; "content" := VList [] ]}])
                   [] (image_count st) (total_image_size st) (cached st))).
Proof.
  split; [apply process_item_unrecognized|]. split.
  - intros st m pre u post Hu Hc. unfold process_message.
    rewrite Hc. rewrite lookup_insert_eq.
    rewrite for_each_drop_unrecognized by done.
    destruct (for_each _ _ _) as [st'|e]; simpl; [|done].
    by rewrite lookup_insert_ne.
  - intros st m items role Hall Hc Hr. unfold process_message.
    rewrite Hc. rewrite for_each_all_unrecognized by done. simpl.
    by rewrite Hr.
Qed.

Lemma for_each_plain (model_id : string) (msgs : list (gmap string value))
    (rs : list (value * string)) (st : locals) :
  Forall2 plain_message msgs rs →
  ∃ st', for_each (process_message tokenizer model_id) msgs st = Ok st' ∧
         processed_messages st' =
           processed_messages st ++
           ((λ r, normalized r.1 [text_part (VStr r.2) (cacheable tokenizer model_id r.2)]) <$> rs) ∧
         image_count st' = image_count st ∧
         total_image_size st' = total_image_size st.
Proof.
  intros H. revert st. induction H as [|m [role s] msgs rs [Hr Hc] _ IH]; intros st.
  - exists st. simpl. by rewrite app_nil_r.
  - simpl in Hr, Hc. simpl. rewrite (process_message_plain _ _ _ _ _ Hr Hc). simpl.
    destruct (IH (Locals (processed_messages st
                            ++ [normalized role [text_part (VStr s) (cacheable tokenizer model_id s)]])
                         [text_part (VStr s) (cacheable tokenizer model_id s)]
                         (image_count st) (total_image_size st)
                         (cached st || cacheable tokenizer model_id s)))
      as (st' & Hrun & Hout & Hn & Hsz).
    exists st'. split; [exact Hrun|]. simpl in Hout, Hn, Hsz.
    split; [by rewrite Hout, <- app_assoc|done].
Qed.

(** C8, as amended.  Messages whose content is a plain string normalise,
    in order, to messages of the same role whose content is a single text
    part with the same text; the only addition is the cache-eligibility
    marker, present exactly when the model is the caching model and the text
    has at least 1024 tokens, so that for every other model nothing is
    added. *)
Theorem plain_messages_wrapped (model_id : string) (msgs : list (gmap string value))
    (rs : list (value * string)) :
  Forall2 plain_message msgs rs →
  ∃ st, normalize tokenizer model_id msgs = Ok st ∧
        processed_messages st =
          (λ r, normalized r.1 [text_part (VStr r.2) (cacheable tokenizer model_id r.2)]) <$> rs ∧
        (model_id ≠ caching_model →
         processed_messages st = (λ r, normalized r.1 [text_part (VStr r.2) false]) <$> rs).
Proof.
  intros H. destruct (for_each_plain model_id msgs rs initial H) as (st & Hrun & Hout & _).
  exists st. split; [exact Hrun|]. split; [exact Hout|].
  intros Hne. rewrite Hout. simpl. apply list_fmap_ext. intros i [r s] _. simpl.
  destruct (cacheable tokenizer model_id s) eqn:Hc; [|done].
  apply cacheable_iff in Hc as [? _]. done.
Qed.

(** ** The image limits *)

Lemma process_item_image (model_id : string) (st : locals) (item : value) :
  is_image item = true → well_formed_part item = true →
  ∃ block,
    process_item tokenizer model_id st item =
    if 5 <=? image_count st then Raise count_error
    else if negb (Qle_bool (total_image_size st + estimated_size item) size_limit)
         then Raise size_error
         else Ok (Locals (processed_messages st) (processed_content st ++ [block])
                         (S (image_count st))
                         (total_image_size st + estimated_size item)%Q (cached st)).
Proof.
  unfold is_image, well_formed_part. destruct (tag_of item) as [ty|] eqn:Hty; [|done].
  intros Himg. rewrite Himg.
  assert (eq_str ty "text" = false) as Htext.
  { destruct ty; try done. simpl in *. apply String.eqb_eq in Himg as ->. done. }
  rewrite Htext. destruct (image_url_of item) as [u|] eqn:Hu; [|done]. intros Hwf.
  unfold process_item. rewrite (tag_of_Some _ _ Hty). simpl. rewrite Htext, Himg.
  destruct (5 <=? image_count st); [by exists VNone|].
  unfold estimated_size. rewrite Hu.
  destruct item as [| | | | | |d]; try done. simpl in Hu |- *.
  destruct (d !! "image_url") as [[| | | | | |image_data]|]; try done. simpl.
  destruct (image_data !! "url") as [[| | | |u'| |]|] eqn:Hurl; try done.
  simplify_eq.
  destruct (process_image_well_formed _ _ Hurl Hwf) as (block & -> & Hsize).
  exists block. simpl. rewrite Hsize. simpl.
  by destruct (negb _).
Qed.

Lemma process_item_other (model_id : string) (st : locals) (item : value) :
  is_image item = false → well_formed_part item = true →
  ∃ st', process_item tokenizer model_id st item = Ok st' ∧
         processed_messages st' = processed_messages st ∧
         image_count st' = image_count st ∧
         total_image_size st' = total_image_size st.
Proof.
  unfold is_image, well_formed_part. destruct (tag_of item) as [ty|] eqn:Hty; [|done].
  intros Himg. rewrite Himg. destruct (eq_str ty "text") eqn:Htext.
  - destruct (getitem item "text") as [[| | | |s| |]|] eqn:Ht; try done. intros _.
    unfold process_item. rewrite (tag_of_Some _ _ Hty). simpl. rewrite Htext, Ht. simpl.
    rewrite text_block_str. simpl. eexists. split; [done|].
    by destruct (cacheable tokenizer model_id s).
  - intros _. exists st. split; [|done].
    apply process_item_unrecognized. unfold unrecognized. by rewrite Hty, Htext, Himg.
Qed.

Lemma items_limits (model_id : string) (items : list value) :
  forallb well_formed_part items = true →
  ∀ st, within_limits st →
  match for_each (process_item tokenizer model_id) items st with
  | Ok st' =>
      within_limits st' ∧
      processed_messages st' = processed_messages st ∧
      image_count st' = image_count st + length (List.filter is_image items) ∧
      (total_image_size st' ==
         total_image_size st + Qsum (estimated_size <$> List.filter is_image items))%Q
  | Raise e =>
      image_limit_exceeded e ∧
      (5 < image_count st + length (List.filter is_image items) ∨
       (size_limit <
          total_image_size st + Qsum (estimated_size <$> List.filter is_image items))%Q)
  end.
Proof.
  induction items as [|item items IH]; intros Hwf st Hst.
  - simpl. split; [done|]. split; [done|]. split; [lia|]. lra.
  - simpl in Hwf. apply andb_true_iff in Hwf as [Hitem Hrest].
    specialize (IH Hrest). simpl. destruct (is_image item) eqn:Himg.
    + simpl. refold_sizes.
      pose proof (sizes_nonneg (List.filter is_image items)) as Hpos.
      pose proof (estimated_size_nonneg item) as Hsz.
      destruct Hst as (Hn & H0 & Hle).
      destruct (process_item_image model_id st item Himg Hitem) as [block ->].
      destruct (Nat.leb_spec 5 (image_count st)) as [Hfull|Hroom].
      { simpl. split; [by left|]. left. lia. }
      destruct (negb (Qle_bool _ _)) eqn:Hover.
      { simpl. apply exceeds_spec in Hover. split; [by right|]. right. lra. }
      simpl. apply negb_false_iff, Qle_bool_iff in Hover.
      match goal with |- context [for_each _ items ?s] => specialize (IH s) end.
      simpl in IH. destruct (for_each _ items _) as [st'|e].
      * destruct IH as (Hin & Hpm & Hc & Ht); [by split; simpl; [lia|split; [lra|]]|].
        split; [done|]. split; [done|]. split; [lia|]. lra.
      * destruct IH as [He Hex]; [by split; simpl; [lia|split; [lra|]]|].
        split; [done|]. destruct Hex as [Hex|Hex]; [left; lia|right; lra].
    + destruct (process_item_other model_id st item Himg Hitem)
        as (st1 & -> & Hpm1 & Hc1 & Ht1).
      simpl. specialize (IH st1). rewrite Hpm1, Hc1, Ht1 in IH. apply IH.
      unfold within_limits. by rewrite Hc1, Ht1.
Qed.

Lemma message_limits (model_id : string) (m : gmap string value) :
  well_formed_message m = true →
  ∀ st, within_limits st →
  match process_message tokenizer model_id st m with
  | Ok st' =>
      within_limits st' ∧
      image_count st' = image_count st + length (List.filter is_image (parts_of m)) ∧
      (total_image_size st' ==
         total_image_size st
         + Qsum (estimated_size <$> List.filter is_image (parts_of m)))%Q
  | Raise e =>
      image_limit_exceeded e ∧
      (5 < image_count st + length (List.filter is_image (parts_of m)) ∨
       (size_limit <
          total_image_size st
          + Qsum (estimated_size <$> List.filter is_image (parts_of m)))%Q)
  end.
Proof.
  unfold well_formed_message, parts_of.
  destruct (m !! "role") as [role|] eqn:Hr; [|done].
  destruct (m !! "content") as [[| | | |s|items|]|] eqn:Hc; try done.
  - intros _ st Hst. rewrite (process_message_plain model_id s role st m Hr Hc). simpl.
    split; [done|]. split; [lia|]. lra.
  - intros Hwf st Hst. unfold process_message. rewrite Hc.
    pose proof (items_limits model_id items Hwf
                  (Locals (processed_messages st) [] (image_count st)
                          (total_image_size st) (cached st)) Hst) as H.
    simpl in H. destruct (for_each _ items _) as [st'|e]; simpl; [|done].
    rewrite Hr. simpl. destruct H as (Hin & _ & Hn & Ht). done.
Qed.

Lemma image_number_cons (m : gmap string value) (msgs : list (gmap string value)) :
  image_number (m :: msgs) = length (List.filter is_image (parts_of m)) + image_number msgs.
Proof.
  unfold image_number, image_parts. simpl. by rewrite List.filter_app, length_app.
Qed.

Lemma image_bytes_cons (m : gmap string value) (msgs : list (gmap string value)) :
  (image_bytes (m :: msgs) ==
     Qsum (estimated_size <$> List.filter is_image (parts_of m)) + image_bytes msgs)%Q.
Proof.
  unfold image_bytes, image_parts. simpl.
  by rewrite List.filter_app, fmap_app, Qsum_app.
Qed.

Lemma messages_limits (model_id : string) (msgs : list (gmap string value)) :
  forallb well_formed_message msgs = true →
  ∀ st, within_limits st →
  match for_each (process_message tokenizer model_id) msgs st with
  | Ok st' =>
      within_limits st' ∧
      image_count st' = image_count st + image_number msgs ∧
      (total_image_size st' == total_image_size st + image_bytes msgs)%Q
  | Raise e =>
      image_limit_exceeded e ∧
      (5 < image_count st + image_number msgs ∨
       (size_limit < total_image_size st + image_bytes msgs)%Q)
  end.
Proof.
  induction msgs as [|m msgs IH]; intros Hwf st Hst.
  - simpl. split; [done|]. unfold image_number, image_bytes. simpl. split; [lia|lra].
  - simpl in Hwf. apply andb_true_iff in Hwf as [Hm Hrest].
    pose proof (message_limits model_id m Hm st Hst) as H1.
    pose proof (image_bytes_cons m msgs) as Hb.
    pose proof (sizes_nonneg (image_parts msgs)) as Hpos. fold (image_bytes msgs) in Hpos.
    simpl. rewrite image_number_cons.
    destruct (process_message _ _ st m) as [st1|e]; simpl.
    + destruct H1 as (Hin & Hn & Ht). specialize (IH Hrest st1 Hin).
      destruct (for_each _ msgs st1) as [st'|e].
      * destruct IH as (Hin' & Hn' & Ht'). split; [done|]. split; [lia|lra].
      * destruct IH as [He [Hex|Hex]]; (split; [done|]); [left; lia|right; lra].
    + destruct H1 as [He [Hex|Hex]]; (split; [done|]); [left; lia|right; lra].
Qed.

Lemma within_limits_initial : within_limits initial.
Proof. unfold within_limits, size_limit. simpl. split; [lia|]. split; lra. Qed.

(** An error of the normalisation loop is what [pipe] returns, as a string,
    without any request made. *)
Lemma pipe_normalize_error (user_message model_id : string)
    (messages : list (gmap string value)) (body : gmap string value) (w : world) (e : exn) :
  normalize tokenizer model_id (pop_system_message join_parts messages).2 = Raise e →
  pipe tokenizer server self join_parts user_message model_id messages body w
  = (w, pop_keys body, Value (VStr ("Error: " +:+ str_exn e))).
Proof.
  intros H. unfold pipe, prepare.
  destruct (pop_system_message join_parts messages) as [system_message rest].
  simpl in H. by rewrite H.
Qed.

(** C2.  On messages of the input data model, the normalisation loop fails
    with one of the two image-limit errors exactly when there are more than
    5 image parts or their cumulative estimated size is above 100 MiB, and
    it succeeds exactly when there are at most 5 and the size is at most
    100 MiB, both edges included.  A failure carries no normalised message,
    and [pipe] then returns the error string without contacting the
    provider. *)
Theorem image_limits (model_id : string) (msgs : list (gmap string value)) :
  forallb well_formed_message msgs = true →
  ((∃ e, normalize tokenizer model_id msgs = Raise e ∧ image_limit_exceeded e)
   ↔ 5 < image_number msgs ∨ (size_limit < image_bytes msgs)%Q) ∧
  ((∃ st, normalize tokenizer model_id msgs = Ok st)
   ↔ image_number msgs ≤ 5 ∧ (image_bytes msgs <= size_limit)%Q) ∧
  (∀ e input user_message body w,
      normalize tokenizer model_id msgs = Raise e →
      (pop_system_message join_parts input).2 = msgs →
      pipe tokenizer server self join_parts user_message model_id input body w
      = (w, pop_keys body, Value (VStr ("Error: " +:+ str_exn e)))).
Proof.
  intros Hwf.
  pose proof (messages_limits model_id msgs Hwf initial within_limits_initial) as H.
  unfold normalize. simpl in H.
  destruct (for_each _ msgs initial) as [st|e] eqn:Hrun.
  - destruct H as ((Hn & H0 & Hle) & Hc & Ht).
    split; [|split].
    + split; [by intros (e & ? & _)|]. intros [Hex|Hex]; [lia|lra].
    + split; [|by eauto]. intros _. split; [lia|lra].
    + done.
  - destruct H as [He Hex]. split; [|split].
    + split; [|intros _; by exists e].
      intros _. destruct Hex as [Hex|Hex]; [left; lia|right; lra].
    + split; [by intros [st ?]|]. intros [Hn Hle]. destruct Hex as [Hex|Hex]; [lia|lra].
    + intros e' input user_message body w [= <-] Hpop.
      apply pipe_normalize_error. rewrite Hpop. exact Hrun.
Qed.

(** The size limit itself is never met: 100 MiB is not three quarters of a
    whole number, so the cumulative size is below it or above it. *)
Remark exact_limit_unreachable (msgs : list (gmap string value)) :
  ¬ (image_bytes msgs == size_limit)%Q.
Proof.
  unfold image_bytes. destruct (sizes_quarters (image_parts msgs)) as [n ->].
  unfold size_limit, Qeq. simpl. lia.
Qed.

(** Outside the input data model the loop fails in other ways: a
    [data:image] URI without a comma cannot be unpacked, and a part without a
    type tag is a [KeyError], whatever the number of images after it. *)
Remark comma_less_data_uri_raises (model_id : string) :
  normalize tokenizer model_id [user_says (VList [image_item "data:image/png;base64"])]
  = Raise (ValueError "not enough values to unpack (expected 2, got 1)").
Proof. reflexivity. Qed.

Remark untagged_part_raises (model_id : string) (rest : list value) :
  normalize tokenizer model_id [user_says (VList (VDict ∅ :: rest))]
  = Raise (KeyError (KStr "type")).
Proof. reflexivity. Qed.

(** ** Streaming *)

(** C4.  The stream [content_block_start("Hello")],
    [content_block_delta(" world")], [message_stop] yields "Hello" then
    " world" and ends.  In general a stream of well-formed events yields, in
    order, the texts of its content events up to the first [message_stop],
    whose concatenation is the response text; an event of another type
    changes nothing, and nothing after a [message_stop] is read. *)
Theorem stream_fragments (payload : gmap string value) (w : world) :
  (∀ resp d1 d2 d3,
      server (Request url (headers self) payload true) = Ok resp →
      status_code resp = 200%Z →
      events resp = [SSE d1 (JSON (content_block_start "Hello"));
                     SSE d2 (JSON (content_block_delta " world"));
                     SSE d3 (JSON message_stop)] →
      (stream_response server self payload w).2
      = Drained [VStr "Hello"; VStr " world"] None) ∧
  (∀ evs ks out,
      Forall2 (λ event k, kind_of event = Some k) evs ks →
      events_loop evs out = (out, Drained (VStr <$> emitted ks) None) ∧
      String.concat "" (fragment_text <$> yielded (events_loop evs out).2)
      = response_text ks) ∧
  (∀ pre event post out,
      kind_of event = Some OtherEvent →
      events_loop (pre ++ event :: post) out = events_loop (pre ++ post) out) ∧
  (∀ pre event post out,
      kind_of event = Some MessageStop →
      events_loop (pre ++ event :: post) out = events_loop pre out).
Proof.
  split; [|split; [|split]].
  - intros resp d1 d2 d3 Hresp Hstatus Hevents. unfold stream_response. simpl.
    rewrite Hresp, Hstatus, Hevents. done.
  - intros evs ks out H. rewrite (events_loop_emitted _ _ _ H). split; [done|].
    simpl. rewrite concat_fragments. unfold response_text.
    by rewrite emitted_before_stop.
  - intros pre event post out Hk. apply events_loop_after. intros out'.
    by rewrite (events_loop_kind _ _ _ _ Hk).
  - intros pre event post out Hk. rewrite <- (app_nil_r pre) at 2.
    apply events_loop_after. intros out'. by rewrite (events_loop_kind _ _ _ _ Hk).
Qed.

(** C5, as amended.  An event whose body fails to decode with a
    [JSONDecodeError], or whose decoded body is a JSON object without a key
    the loop reads (its [type]; for a content event its [content_block] or
    [delta]; the [text] of that object), is printed and passed over: the loop
    goes on with the next event, and the stream yields and ends as it would
    without that event, so that amid well-formed events every fragment is
    still yielded and no exception reaches the consumer. *)
Theorem malformed_event_skipped (event : sse_event) :
  absorbed event = true →
  (∃ lines, lines ≠ [] ∧
     ∀ rest out, events_loop (event :: rest) out = events_loop rest (out ++ lines)) ∧
  (∀ pre post out,
      (events_loop (pre ++ event :: post) out).2 = (events_loop (pre ++ post) out).2) ∧
  (∀ pre post ks out,
      Forall2 (λ event k, kind_of event = Some k) (pre ++ post) ks →
      (events_loop (pre ++ event :: post) out).2 = Drained (VStr <$> emitted ks) None).
Proof.
  intros Hbad. destruct (events_loop_malformed event Hbad) as (lines & Hlines & Hskip).
  assert (∀ pre post out,
    (events_loop (pre ++ event :: post) out).2 = (events_loop (pre ++ post) out).2) as Hsame.
  { intros pre post out. apply events_loop_after_yielded. intros out1 out2.
    rewrite Hskip. apply events_loop_yielded. }
  split; [by exists lines|]. split; [exact Hsame|].
  intros pre post ks out H. rewrite Hsame. by rewrite (events_loop_emitted _ _ _ H).
Qed.

(** The events the handlers take are malformed. *)
Lemma absorbed_malformed (event : sse_event) :
  absorbed event = true → malformed event = true.
Proof.
  unfold absorbed, malformed, lacks_field, lacks_text, expected_text, tag_of.
  destruct (loads event) as [msg|[| | | | | |d]|msg|msg]; try done.
  destruct (d !! "type") as [ty|]; [|done].
  destruct (eq_str ty "content_block_start").
  { by destruct (d !! "content_block") as [[| | | | | |cb]|]. }
  destruct (eq_str ty "content_block_delta"); [|done].
  by destruct (d !! "delta") as [[| | | | | |cb]|].
Qed.

(** The other malformed events end the stream where they stand, with an
    exception no handler of the loop takes: the decoder's own, or the
    [TypeError] of subscripting what is not an object. *)
Lemma malformed_unabsorbed_ends (event : sse_event) :
  malformed event = true → absorbed event = false →
  ∃ e, (∀ k, e ≠ KeyError k) ∧
       ∀ rest out, events_loop (event :: rest) out = (out, Drained [] (Some e)).
Proof.
  unfold absorbed, malformed.
  destruct (loads event) as [msg|v|msg|msg] eqn:Hl; [done| | |].
  2:{ intros _ _. exists (RecursionError msg). split; [done|]. intros. simpl. by rewrite Hl. }
  2:{ intros _ _. exists (ValueError msg). split; [done|]. intros. simpl. by rewrite Hl. }
  assert (∀ msg, on_event v = Raise (TypeError msg) →
    ∃ e, (∀ k, e ≠ KeyError k) ∧
         ∀ rest out, events_loop (event :: rest) out = (out, Drained [] (Some e))) as Htype.
  { intros msg Hv. exists (TypeError msg). split; [done|]. intros. simpl. by rewrite Hl, Hv. }
  destruct v as [| | | | | |d]; try (intros _ _; by eapply Htype).
  unfold lacks_field, lacks_text, expected_text, tag_of.
  unfold on_event in Htype. simpl in Htype.
  destruct (d !! "type") as [ty|]; [|done]. simpl in Htype.
  destruct (eq_str ty "content_block_start").
  { destruct (d !! "content_block") as [[| | | | | |cb]|]; try done;
      try (intros _ _; by eapply Htype).
    by destruct (cb !! "text"). }
  destruct (eq_str ty "content_block_delta"); [|done].
  destruct (d !! "delta") as [[| | | | | |cb]|]; try done;
    try (intros _ _; by eapply Htype).
  by destruct (cb !! "text").
Qed.

(** A body that is JSON but not an object is neither: subscripting it raises
    a [TypeError], which no handler of the loop takes. *)
Remark non_object_event_raises (raw : string) (rest : list sse_event) (out : list log_line) :
  events_loop (SSE raw (JSON VNone) :: rest) out
  = (out, Drained [] (Some (TypeError "'NoneType' object is not subscriptable"))).
Proof. reflexivity. Qed.

(** ** Completion *)

(** C6, as amended.  [get_completion] posts the payload once.  On status 200
    with a JSON object for body it returns the text of the first content
    block when that block is an object with a [text], and the empty string
    when the body has no [content] or a falsy one; on any other status, the
    other 2xx included, it raises the provider error made of the status and
    the body. *)
Theorem completion_contract (payload : gmap string value) (w : world) :
  let req := Request url (headers self) payload false in
  let out := get_completion server self payload w in
  out.1 = World (sent w ++ [req]) (stdout w) ∧
  (∀ resp, server req = Ok resp → status_code resp ≠ 200%Z →
      out.2 = Raise (Exception ("Error: " +:+ pretty (status_code resp)
                                 +:+ " - " +:+ text resp))) ∧
  (∀ resp res, server req = Ok resp → status_code resp = 200%Z →
      json resp = JSON (VDict res) →
      (res !! "content" = None → out.2 = Ok (VStr "")) ∧
      (∀ c, res !! "content" = Some c → truthy c = false → out.2 = Ok (VStr "")) ∧
      (∀ first rest t, res !! "content" = Some (VList (VDict first :: rest)) →
          first !! "text" = Some t → out.2 = Ok t)).
Proof.
  simpl. split; [done|]. split.
  - intros resp Hresp Hstatus. unfold get_completion. simpl. rewrite Hresp. simpl.
    apply Z.eqb_neq in Hstatus. by rewrite Hstatus.
  - intros resp res Hresp Hstatus Hjson. unfold get_completion. simpl.
    rewrite Hresp. simpl. rewrite Hstatus, Hjson. simpl. split; [|split].
    + intros ->. rewrite bool_decide_eq_false_2; [done|]. by intros [? ?].
    + intros c -> Hc. rewrite bool_decide_eq_true_2 by eauto. simpl. by rewrite Hc.
    + intros first rest t -> Ht. rewrite bool_decide_eq_true_2 by eauto. simpl.
      by rewrite Ht.
Qed.

(** ** The system message *)

Lemma process_item_messages (model_id : string) (st st' : locals) (item : value) :
  process_item tokenizer model_id st item = Ok st' →
  processed_messages st' = processed_messages st.
Proof.
  unfold process_item, text_block, mbind, result_bind. intros H.
  repeat case_match; simplify_eq/=; done.
Qed.

Lemma for_each_item_messages (model_id : string) (items : list value) (st st' : locals) :
  for_each (process_item tokenizer model_id) items st = Ok st' →
  processed_messages st' = processed_messages st.
Proof.
  revert st. induction items as [|item items IH]; intros st; simpl; [by intros [= ->]|].
  destruct (process_item _ _ st item) as [st1|e] eqn:H1; simpl; [|done].
  intros H. rewrite (IH _ H). by apply process_item_messages in H1.
Qed.

Lemma process_message_length (model_id : string) (st st' : locals) (m : gmap string value) :
  process_message tokenizer model_id st m = Ok st' →
  length (processed_messages st') = S (length (processed_messages st)).
Proof.
  unfold process_message, text_block, mbind, result_bind. intros H.
  repeat case_match; simplify_eq/=; rewrite length_app; simpl;
    try match goal with
        | H : for_each _ _ _ = Ok _ |- _ => apply for_each_item_messages in H as ->
        end; simpl; lia.
Qed.

Lemma normalize_length (model_id : string) (msgs : list (gmap string value)) (st st' : locals) :
  for_each (process_message tokenizer model_id) msgs st = Ok st' →
  length (processed_messages st') = length (processed_messages st) + length msgs.
Proof.
  revert st. induction msgs as [|m msgs IH]; intros st; simpl.
  - intros [= ->]. lia.
  - destruct (process_message _ _ st m) as [st1|e] eqn:H1; simpl; [|done].
    intros H. rewrite (IH _ H). apply process_message_length in H1. lia.
Qed.

Lemma make_payload_system (model_id : string) (system_message : option string)
    (processed : list value) (body : gmap string value) :
  make_payload model_id system_message processed body !! "system" =
  match system_message with
  | Some s => if String.eqb s "" then None else Some (VStr s)
  | None => None
  end.
Proof.
  unfold make_payload. rewrite lookup_union_r by reflexivity.
  destruct system_message as [s|]; [|done]. by destruct (String.eqb s "").
Qed.

Lemma make_payload_messages (model_id : string) (system_message : option string)
    (processed : list value) (body : gmap string value) :
  make_payload model_id system_message processed body !! "messages"
  = Some (VList processed).
Proof. unfold make_payload. by apply lookup_union_Some_l. Qed.

(** C7.  With [pop_system_message] as the specification describes it, the
    payload has a [system] entry exactly when the first message has the
    system role and its text is not empty, and the entry is that text; the
    first message is then not among the normalised messages, which are the
    normalisation of the messages after it. *)
Theorem system_message_separate (model_id : string) (msgs : list (gmap string value))
    (body payload : gmap string value) :
  prepare tokenizer join_parts model_id msgs body = Ok payload →
  (is_Some (payload !! "system") ↔
     ∃ m rest, msgs = m :: rest ∧ is_system m = true ∧
               system_text join_parts (m !! "content") ≠ "") ∧
  (∀ m rest, msgs = m :: rest → is_system m = true →
     (∃ st, normalize tokenizer model_id rest = Ok st ∧
            payload !! "messages" = Some (VList (processed_messages st)) ∧
            length (processed_messages st) = length rest) ∧
     (system_text join_parts (m !! "content") ≠ "" →
      payload !! "system" = Some (VStr (system_text join_parts (m !! "content"))))).
Proof.
  unfold prepare, pop_system_message. destruct msgs as [|m rest].
  - simpl. intros [= <-]. rewrite make_payload_system. split; [|done].
    split; [by intros [? ?]|]. by intros (? & ? & ? & _).
  - destruct (is_system m) eqn:Hsys.
    + destruct (normalize tokenizer model_id rest) as [st|e] eqn:Hrun; simpl; [|done].
      intros [= <-]. rewrite make_payload_system, make_payload_messages.
      destruct (String.eqb_spec (system_text join_parts (m !! "content")) "") as [He|Hne].
      * split.
        { split; [by intros [? ?]|]. intros (m' & rest' & [= <- <-] & _ & Hne). done. }
        intros m' rest' [= <- <-] _. split; [|done].
        exists st. split; [done|]. split; [done|].
        by apply normalize_length in Hrun.
      * split.
        { split; [|by eauto]. intros _. by exists m, rest. }
        intros m' rest' [= <- <-] _. split; [|done].
        exists st. split; [done|]. split; [done|].
        by apply normalize_length in Hrun.
    + destruct (normalize tokenizer model_id (m :: rest)) as [st|e]; simpl; [|done].
      intros [= <-]. rewrite make_payload_system. split.
      * split; [by intros [? ?]|]. intros (m' & rest' & [= <- <-] & Hs & _). congruence.
      * intros m' rest' [= <- <-] Hs. congruence.
Qed.

(** ** The top level *)

(** Without the [stream] option [pipe] returns a value, the error string
    when anything raised; so does it when normalisation fails, whatever the
    option. *)
Lemma pipe_not_streaming (user_message model_id : string)
    (messages : list (gmap string value)) (body : gmap string value) (w : world) :
  truthy (default (VBool false) (pop_keys body !! "stream")) = false →
  ∃ v, (pipe tokenizer server self join_parts user_message model_id messages body w).2
       = Value v.
Proof.
  intros Hs. unfold pipe. rewrite Hs.
  destruct (prepare _ _ _ _ _) as [payload|e]; [|by eauto].
  destruct (get_completion _ _ _ _) as [w' [v|e]]; by eauto.
Qed.

(** With the [stream] option and a payload, [pipe] returns the generator
    without having run any of it: nothing is posted, nothing can be caught. *)
Lemma pipe_streaming (user_message model_id : string)
    (messages : list (gmap string value)) (body payload : gmap string value) (w : world) :
  truthy (default (VBool false) (pop_keys body !! "stream")) = true →
  prepare tokenizer join_parts model_id messages (pop_keys body) = Ok payload →
  pipe tokenizer server self join_parts user_message model_id messages body w
  = (w, pop_keys body, Generator payload).
Proof. intros Hs Hp. unfold pipe. by rewrite Hp, Hs. Qed.

(** Reading the generator is what posts the request; a status other than 200
    is then raised at the reader. *)
Lemma drain_provider_error (payload : gmap string value) (w : world) (resp : response) :
  server (Request url (headers self) payload true) = Ok resp →
  status_code resp ≠ 200%Z →
  drain server self (Generator payload) w
  = (World (sent w ++ [Request url (headers self) payload true]) (stdout w),
     Drained [] (Some (provider_error resp))).
Proof.
  intros Hresp Hstatus. unfold drain, stream_response. simpl. rewrite Hresp.
  apply Z.eqb_neq in Hstatus. by rewrite Hstatus.
Qed.

End Properties.

(** C8, as stated, fails: on the caching model a plain text of 1024 tokens
    is wrapped with a [cache_control] entry added to its part. *)
Lemma plain_text_gains_marker :
  let m : gmap string value := {[ "role" := VStr "user"; "content" := VStr long_text ]} in
  ∃ st, normalize char_tokenizer caching_model [m] = Ok st ∧
        processed_messages st = [normalized (VStr "user") [text_part (VStr long_text) true]] ∧
        processed_messages st ≠ [normalized (VStr "user") [text_part (VStr long_text) false]].
Proof.
  eexists. split; [vm_compute; reflexivity|]. split; [vm_compute; reflexivity|].
  intros H. apply (f_equal (λ l, v ← head l; match getitem v "content" with
                                             | Ok (VList [p]) =>
                                                 match getitem p "cache_control" with
                                                 | Ok x => Some x
                                                 | Raise _ => None
                                                 end
                                             | _ => None
                                             end)) in H.
  vm_compute in H. discriminate H.
Qed.

(** C5, as stated, fails: a [content_block_start] event whose content block
    is [null] lacks the expected text, and an event whose body is nested too
    deeply does not parse; either, amid well-formed events, ends the stream
    with an exception at the consumer, and the fragment of the event after it
    is never yielded. *)
Lemma malformed_event_ends_stream :
  let hello := SSE "..." (JSON (content_block_start "Hello")) in
  let world := SSE "..." (JSON (content_block_delta " world")) in
  let stop := SSE "..." (JSON message_stop) in
  events_loop [hello; world; stop] [] = ([], Drained [VStr "Hello"; VStr " world"] None) ∧
  malformed null_block = true ∧
  events_loop [hello; null_block; world; stop] []
  = ([], Drained [VStr "Hello"]
           (Some (TypeError "'NoneType' object is not subscriptable"))) ∧
  malformed too_deep = true ∧
  events_loop [hello; too_deep; world; stop] []
  = ([], Drained [VStr "Hello"]
           (Some (RecursionError "maximum recursion depth exceeded while decoding a JSON array from a unicode string"))).
Proof. repeat split; vm_compute; reflexivity. Qed.

(** C6, as stated, fails: when the first block of the content is not a text,
    [get_completion] raises a [KeyError] where the first text block is the
    second block; and on the success status 201 it raises the provider
    error. *)
Lemma completion_not_first_text_block :
  first_text_block tool_then_text = Some (VStr "hi") ∧
  (get_completion tool_first default_self ∅ (World [] [])).2
  = Raise (KeyError (KStr "text")) ∧
  success_status 201 = true ∧
  (get_completion created default_self ∅ (World [] [])).2
  = Raise (Exception "Error: 201 - created").
Proof. repeat split; vm_compute; reflexivity. Qed.

(** * The properties at concrete inputs *)

(** C1.  With the [stream] option, [pipe] hands back the generator before
    any of [stream_response] has run; when the provider then answers 500, the
    exception is raised at the consumer reading the generator, outside the
    [try] of [pipe].  Without the option the same answer comes back as an
    error string. *)
Theorem stream_error_escapes :
  let body : gmap string value := {[ "stream" := VBool true; "user" := VStr "u1" ]} in
  let w := World [] [] in
  ∃ payload w',
    pipe char_tokenizer overloaded default_self concat_texts
         "hi" current_model [user_says (VStr "hi")] body w
    = (w, {[ "stream" := VBool true ]}, Generator payload) ∧
    drain overloaded default_self (Generator payload) w
    = (World [Request url (headers default_self) payload true] [],
       Drained [] (Some (Exception "Error: 500 - overloaded"))) ∧
    pipe char_tokenizer overloaded default_self concat_texts
         "hi" current_model [user_says (VStr "hi")] ∅ w
    = (w', ∅, Value (VStr "Error: Error: 500 - overloaded")).
Proof.
  eexists _, _. split; [vm_compute; reflexivity|].
  split; vm_compute; reflexivity.
Qed.

Lemma image_limits_witness :
  forallb well_formed_message five_images = true ∧
  image_number five_images = 5 ∧
  ∃ st, normalize char_tokenizer current_model five_images = Ok st.
Proof.
  split; [reflexivity|]. split; [reflexivity|].
  destruct (image_limits char_tokenizer greeting default_self concat_texts
              current_model five_images eq_refl) as (_ & Hok & _).
  apply Hok. split; [vm_compute; lia|by vm_compute].
Defined.

Lemma cache_marker_rule_witness :
  ∃ part st',
    process_item char_tokenizer caching_model initial (text_item long_text) = Ok st' ∧
    processed_content st' = [part] ∧
    carries_marker part.
Proof.
  destruct (cache_marker_rule char_tokenizer caching_model long_text initial
              {[ "type" := VStr "text"; "text" := VStr long_text ]})
    as (part & st' & Hrun & Hout & _ & _ & Hmark & _); [reflexivity..|].
  exists part, st'. split; [exact Hrun|]. split; [exact Hout|].
  apply Hmark. split; [reflexivity|vm_compute; lia].
Defined.

Lemma stream_fragments_witness :
  (stream_response greeting default_self ∅ (World [] [])).2
  = Drained [VStr "Hello"; VStr " world"] None.
Proof.
  destruct (stream_fragments greeting default_self ∅ (World [] [])) as [Hello _].
  eapply Hello; reflexivity.
Defined.

Lemma malformed_event_skipped_witness :
  let tool_use :=
    SSE "..." (JSON (VDict {[ "type" := VStr "content_block_start";
                              "content_block" := VDict {[ "type" := VStr "tool_use" ]} ]})) in
  absorbed tool_use = true ∧
  (events_loop [SSE "..." (JSON (content_block_start "Hello")); tool_use;
                SSE "..." (JSON (content_block_delta " world"));
                SSE "..." (JSON message_stop)] []).2
  = Drained [VStr "Hello"; VStr " world"] None.
Proof.
  intros tool_use. split; [reflexivity|].
  destruct (malformed_event_skipped tool_use eq_refl) as (_ & _ & Hstream).
  apply (Hstream [SSE "..." (JSON (content_block_start "Hello"))]
                 [SSE "..." (JSON (content_block_delta " world"));
                  SSE "..." (JSON message_stop)]
                 [ContentBlockStart "Hello"; ContentBlockDelta " world"; MessageStop] []).
  repeat constructor.
Defined.

Lemma completion_contract_witness :
  (get_completion greeting default_self ∅ (World [] [])).2 = Ok (VStr "Hello world").
Proof.
  destruct (completion_contract greeting default_self ∅ (World [] [])) as (_ & _ & Hok).
  edestruct Hok as (_ & _ & Hfirst); [reflexivity..|].
  eapply Hfirst; reflexivity.
Defined.

Lemma system_message_separate_witness :
  let msgs := [system_says (VStr "be brief"); user_says (VStr "hi")] in
  let payload :=
    make_payload current_model (Some "be brief")
                 [normalized (VStr "user") [text_part (VStr "hi") false]] ∅ in
  prepare char_tokenizer concat_texts current_model msgs ∅ = Ok payload ∧
  payload !! "system" = Some (VStr "be brief") ∧
  payload !! "messages" = Some (VList [normalized (VStr "user") [text_part (VStr "hi") false]]).
Proof.
  intros msgs payload.
  assert (prepare char_tokenizer concat_texts current_model msgs ∅ = Ok payload) as Hprep
    by (vm_compute; reflexivity).
  split; [exact Hprep|].
  destruct (system_message_separate char_tokenizer concat_texts current_model msgs ∅ payload
              Hprep) as [_ Hhead].
  destruct (Hhead _ _ eq_refl eq_refl) as [(st & Hrun & Hmsgs & _) Hsys].
  split; [by apply Hsys|].
  rewrite Hmsgs. vm_compute in Hrun. by injection Hrun as <-.
Defined.

Lemma plain_messages_wrapped_witness :
  ∃ st, normalize char_tokenizer current_model
          [user_says (VStr "hi"); {[ "role" := VStr "assistant"; "content" := VStr "hello" ]}]
        = Ok st ∧
        processed_messages st
        = [normalized (VStr "user") [text_part (VStr "hi") false];
           normalized (VStr "assistant") [text_part (VStr "hello") false]].
Proof.
  destruct (plain_messages_wrapped char_tokenizer current_model
              [user_says (VStr "hi"); {[ "role" := VStr "assistant"; "content" := VStr "hello" ]}]
              [(VStr "user", "hi"); (VStr "assistant", "hello")])
    as (st & Hrun & Hout & _).
  { repeat constructor. }
  exists st. split; [exact Hrun|]. rewrite Hout. reflexivity.
Defined.

Lemma unrecognized_parts_dropped_witness :
  unrecognized audio_item = true ∧
  process_item char_tokenizer current_model initial audio_item = Ok initial.
Proof.
  split; [reflexivity|].
  destruct (unrecognized_parts_dropped char_tokenizer current_model) as [Hdrop _].
  by apply Hdrop.
Defined.

(** Six images are one too many. *)
Example six_images_rejected :
  normalize char_tokenizer current_model
    (five_images ++ [user_says (VList [image_item "https://example.com/b.png"])])
  = Raise count_error.
Proof. vm_compute. reflexivity. Qed.

(** * Further properties *)

(** ** Splitting strings *)

Lemma append_cons (x : Ascii.ascii) (a b : string) : String x a +:+ b = String x (a +:+ b).
Proof. reflexivity. Qed.

Lemma append_empty_r (a : string) : a +:+ "" = a.
Proof. induction a as [|x a IH]; [done|]. by rewrite append_cons, IH. Qed.

Lemma append_assoc (a b c : string) : (a +:+ b) +:+ c = a +:+ b +:+ c.
Proof. induction a as [|x a IH]; [done|]. by rewrite !append_cons, IH. Qed.

Lemma occurs_app (c : Ascii.ascii) (a b : string) :
  occurs c (a +:+ b) = occurs c a || occurs c b.
Proof.
  induction a as [|x a IH]; [done|]. rewrite append_cons. simpl.
  by rewrite IH, orb_assoc.
Qed.

Lemma split_once_app (sep : Ascii.ascii) (a b : string) :
  occurs sep a = false → split_once sep (a +:+ String sep b) = Some (a, b).
Proof.
  induction a as [|x a IH].
  - intros _. change ("" +:+ String sep b) with (String sep b). simpl.
    by rewrite Ascii.eqb_refl.
  - rewrite append_cons. simpl. intros [Hx Ha]%orb_false_iff. by rewrite Hx, (IH Ha).
Qed.

Lemma split_once_inv (sep : Ascii.ascii) (s h t : string) :
  split_once sep s = Some (h, t) → s = h +:+ String sep t ∧ occurs sep h = false.
Proof.
  revert h. induction s as [|x s IH]; intros h; simpl; [done|].
  destruct (Ascii.eqb_spec x sep) as [->|Hne].
  - by intros [= <- <-].
  - destruct (split_once sep s) as [[h' t']|]; simpl; [|done].
    intros [= <- <-]. destruct (IH h' eq_refl) as [-> Hh]. rewrite append_cons. simpl.
    split; [done|]. rewrite Hh. apply orb_false_iff. split; [by apply Ascii.eqb_neq|done].
Qed.

Lemma split_once_None (sep : Ascii.ascii) (s : string) :
  split_once sep s = None ↔ occurs sep s = false.
Proof.
  induction s as [|x s IH]; simpl; [done|].
  destruct (Ascii.eqb x sep); simpl; [done|].
  rewrite <- IH. by destruct (split_once sep s) as [[? ?]|].
Qed.

Lemma head_split (sep : Ascii.ascii) (s : string) : head (split sep s) = Some (upto sep s).
Proof.
  induction s as [|x s IH]; simpl; [done|].
  destruct (Ascii.eqb x sep); [done|].
  destruct (split sep s) as [|h t]; simpl in *; by simplify_eq.
Qed.

Lemma upto_app (sep : Ascii.ascii) (a b : string) :
  occurs sep a = false → upto sep (a +:+ b) = a +:+ upto sep b.
Proof.
  induction a as [|x a IH]; [done|]. rewrite !append_cons. simpl.
  intros [Hx Ha]%orb_false_iff. by rewrite Hx, (IH Ha).
Qed.

Lemma prefix_app_r (p a b : string) :
  String.prefix p a = true → String.prefix p (a +:+ b) = true.
Proof.
  revert a. induction p as [|x p IH]; intros a; [intros _; by destruct (a +:+ b)|].
  destruct a as [|y a]; [done|]. rewrite append_cons. simpl.
  destruct (ascii_dec x y); [apply IH|done].
Qed.

Lemma split_data_scheme (x : string) : split ":" ("data:" +:+ x) = "data" :: split ":" x.
Proof.
  change ("data:" +:+ x) with (String "d" (String "a" (String "t" (String "a" (String ":" x))))).
  simpl. by destruct (split_nonempty ":" x) as (h & t & ->).
Qed.

(** ** [process_image] *)

Lemma process_image_inline (image_data : gmap string value) (u mime_type base64_data : string) :
  image_data !! "url" = Some (VStr u) →
  String.prefix "data:image" u = true →
  split_once "," u = Some (mime_type, base64_data) →
  process_image (VDict image_data) =
  match split ":" mime_type !! 1%nat with
  | Some after =>
      Ok (image_block (base64_source (default "" (head (split ";" after))) base64_data))
  | None => Raise (IndexError "list index out of range")
  end.
Proof.
  intros Hu Hp Hs. unfold process_image. simpl. rewrite Hu. simpl. by rewrite Hp, Hs.
Qed.

(** X1.  On a dictionary, [process_image] returns a block exactly when the
    dictionary has a string under [url] that does not start with
    [data:image] or has a comma; the block of a linked image holds the URL as
    given, and that of an inline image holds what follows the first comma, so
    that the URL is the part before the comma, the comma and the data. *)
Theorem process_image_succeeds (image_data : gmap string value) :
  ((∃ block, process_image (VDict image_data) = Ok block)
   ↔ ∃ u, image_data !! "url" = Some (VStr u) ∧ well_formed_url u = true) ∧
  (∀ u block, image_data !! "url" = Some (VStr u) →
      process_image (VDict image_data) = Ok block →
      if String.prefix "data:image" u
      then ∃ mime_type media_type base64_data,
             block = image_block (base64_source media_type base64_data) ∧
             u = mime_type +:+ "," +:+ base64_data ∧
             occurs "," mime_type = false
      else block = image_block (url_source (VStr u))).
Proof.
  split.
  - split.
    + intros [block H]. unfold process_image in H. simpl in H.
      destruct (image_data !! "url") as [[| | | |u| |]|]; simpl in H; try done.
      exists u. split; [done|]. unfold well_formed_url.
      destruct (String.prefix "data:image" u); [|done].
      by destruct (split_once "," u) as [[? ?]|].
    + intros (u & Hu & Hwf).
      destruct (process_image_well_formed _ _ Hu Hwf) as (block & H & _). by exists block.
  - intros u block Hu. unfold process_image. simpl. rewrite Hu. simpl.
    destruct (String.prefix "data:image" u); [|by intros [= <-]].
    destruct (split_once "," u) as [[mime_type base64_data]|] eqn:Hs; [|done].
    destruct (split ":" mime_type !! 1%nat) as [after|]; [|done].
    intros [= <-]. apply split_once_inv in Hs as [-> Hm].
    eexists mime_type, _, base64_data. split; [reflexivity|]. split; [reflexivity|exact Hm].
Qed.

(** X2.  A data URI made of the scheme, an image media type, parameters and
    a payload is taken apart again: the block holds the media type without the
    parameters and the payload whole, commas included. *)
Theorem process_image_data_uri (image_data : gmap string value)
    (media_type params base64_data : string) :
  image_data !! "url"
    = Some (VStr ("data:" +:+ media_type +:+ params +:+ "," +:+ base64_data)) →
  String.prefix "image" media_type = true →
  occurs ":" media_type = false → occurs ";" media_type = false →
  occurs "," media_type = false → occurs "," params = false →
  params = "" ∨ String.prefix ";" params = true →
  process_image (VDict image_data) = Ok (image_block (base64_source media_type base64_data)).
Proof.
  intros Hu Himage Hcolon Hsemi Hcomma Hparams Hshape.
  assert (String.prefix "data:image" ("data:" +:+ media_type +:+ params +:+ "," +:+ base64_data)
          = true) as Hp.
  { change ("data:" +:+ media_type +:+ params +:+ "," +:+ base64_data)
      with (String "d" (String "a" (String "t" (String "a" (String ":"
              (media_type +:+ params +:+ "," +:+ base64_data)))))).
    simpl. repeat (destruct (ascii_dec _ _); [|done]). by apply prefix_app_r. }
  assert (split_once "," ("data:" +:+ media_type +:+ params +:+ "," +:+ base64_data)
          = Some ("data:" +:+ media_type +:+ params, base64_data)) as Hs.
  { replace ("data:" +:+ media_type +:+ params +:+ "," +:+ base64_data)
      with (("data:" +:+ media_type +:+ params) +:+ String "," base64_data)
      by (by rewrite !append_assoc).
    apply split_once_app. by rewrite !occurs_app, Hcomma, Hparams. }
  rewrite (process_image_inline _ _ _ _ Hu Hp Hs), split_data_scheme.
  pose proof (head_split ":" (media_type +:+ params)) as Hafter.
  destruct (split ":" (media_type +:+ params)) as [|after l]; [done|].
  simpl in Hafter. injection Hafter as ->. simpl.
  rewrite head_split. simpl. rewrite (upto_app _ _ _ Hcolon), (upto_app _ _ _ Hsemi).
  replace (upto ";" (upto ":" params)) with ""; [by rewrite append_empty_r|].
  destruct Hshape as [->|Hp']; [reflexivity|].
  apply prefix_cons_inv in Hp' as (rest & -> & _). reflexivity.
Qed.

(** ** The normalisation loop on any input *)

Lemma for_each_ext {S A : Type} (f g : S → A → result S) (l : list A) (s : S) :
  (∀ s x, f s x = g s x) → for_each f l s = for_each g l s.
Proof.
  intros H. revert s. induction l as [|x l IH]; intros s; simpl; [done|].
  rewrite H. destruct (g s x) as [s'|e]; simpl; [apply IH|done].
Qed.

Lemma is_text_not_image (item : value) : is_text item = true → is_image item = false.
Proof.
  unfold is_text, is_image. destruct (tag_of item) as [[| | | |ty| |]|]; simpl; try done.
  intros ->%String.eqb_eq. done.
Qed.

Lemma not_recognized (item : value) :
  recognized item = false → is_text item = false ∧ is_image item = false.
Proof. unfold recognized. by intros ?%orb_false_iff. Qed.

Lemma process_image_inv (image_data block : value) :
  process_image image_data = Ok block →
  ∃ d u, image_data = VDict d ∧ d !! "url" = Some (VStr u) ∧
         image_size_of block = Ok (url_size u).
Proof.
  intros H. destruct image_data as [| | | | | |d]; try done.
  destruct (process_image_succeeds d) as [[Hsome _] _].
  destruct Hsome as (u & Hu & Hwf); [by exists block|].
  destruct (process_image_well_formed d u Hu Hwf) as (block' & H' & Hsize).
  rewrite H in H'. injection H' as <-. by exists d, u.
Qed.

Section Coverage.

Variable tokenizer : string → nat.
Variable server : request → result response.
Variable self : Pipeline.
Variable join_parts : list value → string.

#[local] Arguments Nat.leb : simpl never.
#[local] Arguments process_image : simpl never.
#[local] Arguments image_size_of : simpl never.
#[local] Arguments cache_check : simpl never.

Lemma text_block_inv (model_id : string) (t : value) (st : locals) (r : value * locals) :
  text_block tokenizer model_id t st = Ok r →
  ∃ marked, cache_check tokenizer model_id t = Ok marked ∧
            r = (text_part t marked, if marked then set_cached st else st).
Proof.
  unfold text_block. destruct (cache_check tokenizer model_id t) as [[]|]; simpl;
    intros; simplify_eq; by eauto.
Qed.

(** What a successful turn of the loop over parts has done, by the kind of
    the part. *)
Lemma process_item_inv (model_id : string) (st st' : locals) (item : value) :
  process_item tokenizer model_id st item = Ok st' →
  (is_text item = true ∧
   ∃ t marked, getitem item "text" = Ok t ∧
               cache_check tokenizer model_id t = Ok marked ∧
               st' = append_content (text_part t marked)
                       (if marked then set_cached st else st)) ∨
  (is_text item = false ∧ is_image item = true ∧ image_count st < 5 ∧
   ∃ image_data block sz,
     getitem item "image_url" = Ok image_data ∧
     process_image image_data = Ok block ∧
     image_size_of block = Ok sz ∧
     (total_image_size st + sz <= size_limit)%Q ∧
     st' = Locals (processed_messages st) (processed_content st ++ [block])
                  (S (image_count st)) (total_image_size st + sz)%Q (cached st)) ∨
  (recognized item = false ∧ st' = st).
Proof.
  unfold process_item, recognized, is_text, is_image.
  destruct item as [| | | | | |d]; try done. simpl.
  destruct (d !! "type") as [ty|]; simpl; [|done].
  destruct (eq_str ty "text").
  - destruct (d !! "text") as [t|]; simpl; [|done].
    destruct (text_block tokenizer model_id t st) as [[text_content st1]|] eqn:Hb;
      simpl; [|done].
    intros [= <-]. apply text_block_inv in Hb as (marked & Hc & [= -> ->]).
    left. split; [done|]. by exists t, marked.
  - destruct (eq_str ty "image_url"); [|intros [= <-]; by right; right].
    destruct (Nat.leb_spec 5 (image_count st)) as [|Hroom]; [done|].
    destruct (d !! "image_url") as [image_data|]; simpl; [|done].
    destruct (process_image image_data) as [block|] eqn:Hblock; simpl; [|done].
    destruct (image_size_of block) as [sz|] eqn:Hsz; simpl; [|done].
    destruct (negb (Qle_bool _ _)) eqn:Hover; [done|].
    apply negb_false_iff, Qle_bool_iff in Hover. intros [= <-].
    right; left. split; [done|]. split; [done|]. split; [done|].
    by exists image_data, block, sz.
Qed.

Lemma for_each_items_structure (model_id : string) (items : list value) (st st' : locals) :
  for_each (process_item tokenizer model_id) items st = Ok st' →
  ∃ parts, processed_content st' = processed_content st ++ parts ∧
           Forall2 (part_matches tokenizer model_id) (List.filter recognized items) parts.
Proof.
  revert st. induction items as [|item items IH]; intros st; simpl.
  - intros [= <-]. exists []. by rewrite app_nil_r.
  - destruct (process_item tokenizer model_id st item) as [st1|] eqn:H1; simpl; [|done].
    intros Hrest. destruct (IH _ Hrest) as (parts & Hparts & Hall).
    apply process_item_inv in H1
      as [(Htext & t & marked & Ht & Hc & ->)
         |[(Htext & Himage & _ & image_data & block & sz & Hd & Hb & _ & _ & ->)
          |(Hno & ->)]].
    + unfold recognized. rewrite Htext. simpl.
      exists (text_part t marked :: parts). split.
      { rewrite Hparts. destruct marked; simpl; by rewrite <- app_assoc. }
      constructor; [|done]. unfold part_matches. rewrite Htext. by exists t, marked.
    + unfold recognized. rewrite Htext, Himage. simpl.
      exists (block :: parts). split; [rewrite Hparts; simpl; by rewrite <- app_assoc|].
      constructor; [|done]. unfold part_matches. rewrite Htext. by exists image_data.
    + rewrite Hno. by exists parts.
Qed.

Lemma process_message_structure (model_id : string) (st st' : locals)
    (m : gmap string value) :
  process_message tokenizer model_id st m = Ok st' →
  ∃ out, processed_messages st' = processed_messages st ++ [out] ∧
         message_matches tokenizer model_id m out.
Proof.
  unfold process_message, message_matches.
  destruct (m !! "content") as [content|] eqn:Hc.
  1: destruct content as [| | | | |items|].
  6: { destruct (for_each _ items _) as [st1|] eqn:Hitems; simpl; [|done].
       destruct (m !! "role") as [role|]; simpl; [|done]. intros [= <-]. simpl.
       destruct (for_each_items_structure _ _ _ _ Hitems) as (parts & Hparts & Hall).
       apply for_each_item_messages in Hitems. simpl in Hparts, Hitems.
       eexists. rewrite Hitems. split; [done|]. exists role, parts. by rewrite Hparts. }
  all: simpl;
    match goal with
    | |- context [text_block ?tok ?mid ?t ?s] =>
        destruct (text_block tok mid t s) as [[text_content st1]|] eqn:Hb;
          simpl; [|done];
        apply text_block_inv in Hb as (marked & Hcheck & [= -> ->])
    end;
    destruct (m !! "role") as [role|]; simpl; [|done]; intros [= <-]; simpl;
    (eexists; split; [by destruct marked|]);
    eexists role, _; (split; [done|]); (split; [reflexivity|]); by exists marked.
Qed.

Lemma for_each_messages_structure (model_id : string) (msgs : list (gmap string value))
    (st st' : locals) :
  for_each (process_message tokenizer model_id) msgs st = Ok st' →
  ∃ outs, processed_messages st' = processed_messages st ++ outs ∧
          Forall2 (message_matches tokenizer model_id) msgs outs.
Proof.
  revert st. induction msgs as [|m msgs IH]; intros st; simpl.
  - intros [= <-]. exists []. by rewrite app_nil_r.
  - destruct (process_message tokenizer model_id st m) as [st1|] eqn:H1; simpl; [|done].
    intros Hrest. destruct (IH _ Hrest) as (outs & Houts & Hall).
    destruct (process_message_structure _ _ _ _ H1) as (out & Hout & Hm).
    exists (out :: outs). split; [|by constructor].
    rewrite Houts, Hout. by rewrite <- app_assoc.
Qed.

(** X3.  Whatever the input, a successful normalisation gives one message
    per input message, in order and with its role; the parts of each are, in
    order, the images of the text and image parts of the input message under
    the cache check and [process_image], parts of other types leaving no
    trace; a content that is not a list gives the single text part of that
    content, the empty string when there is none. *)
Theorem normalize_structure (model_id : string) (msgs : list (gmap string value))
    (st : locals) :
  normalize tokenizer model_id msgs = Ok st →
  Forall2 (message_matches tokenizer model_id) msgs (processed_messages st).
Proof.
  intros H. destruct (for_each_messages_structure _ _ _ _ H) as (outs & Houts & Hall).
  simpl in Houts. by rewrite Houts.
Qed.

Lemma process_item_counts (model_id : string) (st st' : locals) (item : value) :
  process_item tokenizer model_id st item = Ok st' →
  within_limits st →
  within_limits st' ∧
  image_count st' = image_count st + (if is_image item then 1 else 0) ∧
  (total_image_size st' ==
     total_image_size st + (if is_image item then estimated_size item else 0))%Q.
Proof.
  intros H Hst. apply process_item_inv in H
    as [(Htext & t & marked & _ & _ & ->)
       |[(_ & Himage & Hroom & image_data & block & sz & Hd & Hb & Hsz & Hle & ->)
        |(Hno & ->)]].
  - rewrite (is_text_not_image _ Htext).
    destruct marked; simpl; (split; [done|]); (split; [lia|lra]).
  - rewrite Himage.
    apply process_image_inv in Hb as (d & u & -> & Hu & Hsize).
    rewrite Hsz in Hsize. injection Hsize as ->.
    assert (estimated_size item = url_size u) as ->.
    { destruct item as [| | | | | |i]; try done. unfold estimated_size. simpl in Hd |- *.
      destruct (i !! "image_url") as [x|]; [|done]. injection Hd as ->. by rewrite Hu. }
    pose proof (url_size_nonneg u) as Hpos. destruct Hst as (Hn & H0 & Hlim).
    split; [|split; [simpl; lia|simpl; lra]].
    split; simpl; [lia|]. split; [lra|done].
  - apply not_recognized in Hno as [_ ->]. split; [done|]. split; [lia|lra].
Qed.

Lemma for_each_items_counts (model_id : string) (items : list value) (st st' : locals) :
  for_each (process_item tokenizer model_id) items st = Ok st' →
  within_limits st →
  within_limits st' ∧
  image_count st' = image_count st + length (List.filter is_image items) ∧
  (total_image_size st' ==
     total_image_size st + Qsum (estimated_size <$> List.filter is_image items))%Q.
Proof.
  revert st. induction items as [|item items IH]; intros st; simpl.
  - intros [= <-] Hst. split; [done|]. split; [lia|lra].
  - destruct (process_item tokenizer model_id st item) as [st1|] eqn:H1; simpl; [|done].
    intros Hrest Hst.
    destruct (process_item_counts _ _ _ _ H1 Hst) as (Hst1 & Hn1 & Ht1).
    destruct (IH _ Hrest Hst1) as (Hst' & Hn & Ht).
    split; [done|]. destruct (is_image item); simpl; refold_sizes; (split; [lia|lra]).
Qed.

Lemma process_message_counts (model_id : string) (st st' : locals) (m : gmap string value) :
  process_message tokenizer model_id st m = Ok st' →
  within_limits st →
  within_limits st' ∧
  image_count st' = image_count st + length (List.filter is_image (parts_of m)) ∧
  (total_image_size st' ==
     total_image_size st + Qsum (estimated_size <$> List.filter is_image (parts_of m)))%Q.
Proof.
  unfold process_message, parts_of.
  destruct (m !! "content") as [content|] eqn:Hc.
  1: destruct content as [| | | | |items|].
  6: { destruct (for_each _ items _) as [st1|] eqn:Hitems; simpl; [|done].
       destruct (m !! "role") as [role|]; simpl; [|done]. intros [= <-] Hst.
       by destruct (for_each_items_counts _ _ _ _ Hitems Hst) as (? & ? & ?). }
  all: simpl;
    match goal with
    | |- context [text_block ?tok ?mid ?t ?s] =>
        destruct (text_block tok mid t s) as [[text_content st1]|] eqn:Hb;
          simpl; [|done];
        apply text_block_inv in Hb as (marked & Hcheck & [= -> ->])
    end;
    destruct (m !! "role") as [role|]; simpl; [|done]; intros [= <-] Hst;
    destruct marked; simpl; (split; [done|]); (split; [lia|lra]).
Qed.

(** X4.  Whatever the input, a normalisation that succeeds has met at most
    5 image parts of at most 100 MiB in all, and its two counters are their
    number and their cumulative estimated size: no payload is built beyond the
    limits. *)
Theorem normalize_within_limits (model_id : string) (msgs : list (gmap string value))
    (st : locals) :
  normalize tokenizer model_id msgs = Ok st →
  image_number msgs ≤ 5 ∧ (image_bytes msgs <= size_limit)%Q ∧
  image_count st = image_number msgs ∧ (total_image_size st == image_bytes msgs)%Q.
Proof.
  unfold normalize.
  assert (∀ msgs st0 st1,
    for_each (process_message tokenizer model_id) msgs st0 = Ok st1 →
    within_limits st0 →
    within_limits st1 ∧ image_count st1 = image_count st0 + image_number msgs ∧
    (total_image_size st1 == total_image_size st0 + image_bytes msgs)%Q) as Hloop.
  { clear msgs st. induction msgs as [|m msgs IH]; intros st0 st1; simpl.
    - intros [= <-] Hst. split; [done|]. unfold image_number, image_bytes. simpl.
      split; [lia|lra].
    - destruct (process_message tokenizer model_id st0 m) as [st2|] eqn:H1; simpl; [|done].
      intros Hrest Hst.
      destruct (process_message_counts _ _ _ _ H1 Hst) as (Hst2 & Hn2 & Ht2).
      destruct (IH _ _ Hrest Hst2) as (Hst1 & Hn & Ht).
      pose proof (image_bytes_cons m msgs) as Hb. rewrite image_number_cons.
      split; [done|]. split; [lia|lra]. }
  intros H. destruct (Hloop _ _ _ H (within_limits_initial)) as ((Hn & H0 & Hle) & Hc & Ht).
  simpl in Hc, Ht. split; [lia|]. split; [lra|]. split; [lia|lra].
Qed.

(** ** The payload and the options *)

Lemma pop_keys_option (body : gmap string value) (k : string) :
  k ∈ option_keys → pop_keys body !! k = body !! k.
Proof.
  intros Hk. rewrite pop_keys_lookup. destruct (decide (k ∈ stripped_keys)) as [Hin|]; [|done].
  exfalso. unfold option_keys, stripped_keys in *.
  rewrite !elem_of_cons in Hk. rewrite !elem_of_cons in Hin.
  destruct Hk as [->|[->|[->|[->|[->|[->|[]%elem_of_nil]]]]]];
    by destruct Hin as [|[|[|[]%elem_of_nil]]].
Qed.

Lemma make_payload_agree (model_id : string) (system_message : option string)
    (processed : list value) (body body' : gmap string value) :
  Forall (λ k, body !! k = body' !! k) option_keys →
  make_payload model_id system_message processed body
  = make_payload model_id system_message processed body'.
Proof.
  unfold option_keys. rewrite !Forall_cons.
  intros (H1 & H2 & H3 & H4 & H5 & H6 & _). unfold make_payload.
  by rewrite H1, H2, H3, H4, H5, H6.
Qed.

(** X6.  A payload has the eight keys [model], [messages], [max_tokens],
    [temperature], [top_k], [top_p], [stop_sequences] and [stream], the key
    [system] when there is a non-empty system message, and no other: nothing
    else of the options reaches the provider. *)
Theorem payload_domain (model_id : string) (system_message : option string)
    (processed : list value) (body : gmap string value) :
  dom (make_payload model_id system_message processed body) =
  payload_keys ∪ match system_message with
                 | Some s => if String.eqb s "" then ∅ else {[ "system" ]}
                 | None => ∅
                 end.
Proof.
  unfold make_payload, payload_keys. rewrite dom_union_L.
  rewrite !dom_insert_L, dom_singleton_L.
  destruct system_message as [s|]; [destruct (String.eqb s "")|]; simpl;
    rewrite ?dom_empty_L, ?dom_singleton_L; by vm_compute.
Qed.

(** X7.  [pipe] reads six options and no other: two option dictionaries that
    agree on [max_tokens], [temperature], [top_k], [top_p], [stop] and
    [stream] give the same requests, the same prints and the same result. *)
Theorem pipe_reads_six_options (user_message model_id : string)
    (messages : list (gmap string value)) (body body' : gmap string value) (w : world) :
  Forall (λ k, body !! k = body' !! k) option_keys →
  (pipe tokenizer server self join_parts user_message model_id messages body w).1.1
  = (pipe tokenizer server self join_parts user_message model_id messages body' w).1.1 ∧
  (pipe tokenizer server self join_parts user_message model_id messages body w).2
  = (pipe tokenizer server self join_parts user_message model_id messages body' w).2.
Proof.
  intros Hagree.
  assert (Forall (λ k, pop_keys body !! k = pop_keys body' !! k) option_keys) as Hpop.
  { apply Forall_forall. intros k Hk. rewrite !pop_keys_option by done.
    by apply (proj1 (Forall_forall _ _) Hagree). }
  assert (pop_keys body !! "stream" = pop_keys body' !! "stream") as Hstream.
  { apply (proj1 (Forall_forall _ _) Hpop). unfold option_keys. set_solver. }
  unfold pipe, prepare. rewrite Hstream.
  destruct (pop_system_message join_parts messages) as [system_message rest].
  destruct (normalize tokenizer model_id rest) as [st|e]; simpl; [|done].
  rewrite (make_payload_agree _ _ _ _ _ Hpop).
  destruct (truthy _); [split; reflexivity|].
  match goal with |- context [Value <$> ?r] => destruct (Value <$> r) end;
    split; reflexivity.
Qed.

(** ** Requests *)

(** X8.  An invocation, its generator read to the end if it returned one,
    posts exactly one request when normalisation succeeds and none when it
    fails: the payload, to the fixed URL with the instance's headers, streamed
    exactly when the [stream] option is true.  There is no second attempt. *)
Theorem one_request_per_invocation (user_message model_id : string)
    (messages : list (gmap string value)) (body : gmap string value) (w : world) :
  let out := pipe tokenizer server self join_parts user_message model_id messages body w in
  let final := drain server self out.2 out.1.1 in
  sent final.1 =
  match prepare tokenizer join_parts model_id messages (pop_keys body) with
  | Ok payload =>
      sent w ++ [Request url (headers self) payload
                         (truthy (default (VBool false) (pop_keys body !! "stream")))]
  | Raise _ => sent w
  end.
Proof.
  simpl. unfold pipe.
  destruct (prepare tokenizer join_parts model_id messages (pop_keys body)) as [payload|e];
    [|done].
  destruct (truthy _).
  - simpl. unfold stream_response, post. simpl.
    destruct (server _) as [resp|]; [|done].
    destruct (status_code resp =? 200)%Z; [|done].
    by destruct (events_loop _ _) as [out d].
  - unfold get_completion, post.
    match goal with |- context [Value <$> ?r] => by destruct r end.
Qed.

(** X9.  Without the [stream] option and with a payload, [pipe] is one
    exchange: the text of the first block of a 200 answer is returned as it
    is; any other status comes back as the string "Error: Error: <status> -
    <body>", the prefix twice; an exception of the transport comes back as
    "Error: " and its message.  The options come back stripped in every
    case. *)
Theorem completion_end_to_end (user_message model_id : string)
    (messages : list (gmap string value)) (body payload : gmap string value) (w : world) :
  prepare tokenizer join_parts model_id messages (pop_keys body) = Ok payload →
  truthy (default (VBool false) (pop_keys body !! "stream")) = false →
  let req := Request url (headers self) payload false in
  let w' := World (sent w ++ [req]) (stdout w) in
  let out := pipe tokenizer server self join_parts user_message model_id messages body w in
  (∀ resp res first rest t,
      server req = Ok resp → status_code resp = 200%Z → json resp = JSON (VDict res) →
      res !! "content" = Some (VList (VDict first :: rest)) → first !! "text" = Some t →
      out = (w', pop_keys body, Value t)) ∧
  (∀ resp, server req = Ok resp → status_code resp ≠ 200%Z →
      out = (w', pop_keys body,
             Value (VStr ("Error: " +:+ "Error: " +:+ pretty (status_code resp)
                          +:+ " - " +:+ text resp)))) ∧
  (∀ e, server req = Raise e →
      out = (w', pop_keys body, Value (VStr ("Error: " +:+ str_exn e)))).
Proof.
  intros Hprep Hstream. simpl. unfold pipe. rewrite Hprep, Hstream.
  unfold get_completion, post. split; [|split].
  - intros resp res first rest t Hresp Hstatus Hjson Hcontent Htext.
    rewrite Hresp. simpl. rewrite Hstatus, Hjson. simpl. rewrite Hcontent.
    rewrite bool_decide_eq_true_2 by eauto. simpl. by rewrite Htext.
  - intros resp Hresp Hstatus. rewrite Hresp. simpl.
    apply Z.eqb_neq in Hstatus. by rewrite Hstatus.
  - intros e Hresp. by rewrite Hresp.
Qed.

(** X10.  With the [stream] option and a payload, [pipe] returns the
    generator and has posted nothing; reading it posts the payload once and,
    on a 200 answer of well-formed events, yields the fragments of the event
    table, prints nothing and ends without an exception. *)
Theorem stream_end_to_end (user_message model_id : string)
    (messages : list (gmap string value)) (body payload : gmap string value) (w : world)
    (resp : response) (ks : list event_kind) :
  prepare tokenizer join_parts model_id messages (pop_keys body) = Ok payload →
  truthy (default (VBool false) (pop_keys body !! "stream")) = true →
  server (Request url (headers self) payload true) = Ok resp →
  status_code resp = 200%Z →
  Forall2 (λ event k, kind_of event = Some k) (events resp) ks →
  pipe tokenizer server self join_parts user_message model_id messages body w
  = (w, pop_keys body, Generator payload) ∧
  drain server self (Generator payload) w
  = (World (sent w ++ [Request url (headers self) payload true]) (stdout w),
     Drained (VStr <$> emitted ks) None).
Proof.
  intros Hprep Hstream Hresp Hstatus Hevents.
  split; [by apply pipe_streaming|].
  unfold drain, stream_response, post. rewrite Hresp, Hstatus. simpl.
  by rewrite (events_loop_emitted _ _ _ Hevents).
Qed.

(** X11.  A 200 answer that [get_completion] cannot read is an exception,
    not an empty text: a body that is not JSON raises the decoder's error, a
    JSON body that is null, a boolean or a number raises a [TypeError], and a
    first content block without [text] raises [KeyError('text')]. *)
Theorem completion_failures (payload : gmap string value) (w : world) (resp : response) :
  server (Request url (headers self) payload false) = Ok resp →
  status_code resp = 200%Z →
  let out := (get_completion server self payload w).2 in
  (∀ msg, json resp = NotJSON msg → out = Raise (JSONDecodeError msg)) ∧
  (∀ v, json resp = JSON v →
      match v with VNone | VBool _ | VInt _ | VFloat _ => True | _ => False end →
      ∃ msg, out = Raise (TypeError msg)) ∧
  (∀ res first rest, json resp = JSON (VDict res) →
      res !! "content" = Some (VList (VDict first :: rest)) → first !! "text" = None →
      out = Raise (KeyError (KStr "text"))).
Proof.
  intros Hresp Hstatus. simpl. unfold get_completion, post. rewrite Hresp. simpl.
  rewrite Hstatus. split; [|split].
  - intros msg ->. done.
  - intros v -> Hv. destruct v; try done; simpl; by eauto.
  - intros res first rest -> Hcontent Htext. simpl. rewrite Hcontent.
    rewrite bool_decide_eq_true_2 by eauto. simpl. by rewrite Htext.
Qed.

(** ** Messages with a key missing *)

(** X12.  A message without [content] normalises as if its content were the
    empty string; a message without [role] cannot be normalised, so every
    message of a list that normalises has a role, and a plain message without
    one raises [KeyError('role')]. *)
Theorem message_keys (model_id : string) :
  (∀ st (m : gmap string value), m !! "content" = None →
      process_message tokenizer model_id st m
      = process_message tokenizer model_id st (<["content" := VStr ""]> m)) ∧
  (∀ msgs st, normalize tokenizer model_id msgs = Ok st →
      Forall (λ m : gmap string value, is_Some (m !! "role")) msgs) ∧
  (∀ st (m : gmap string value) s, m !! "role" = None → m !! "content" = Some (VStr s) →
      process_message tokenizer model_id st m = Raise (KeyError (KStr "role"))).
Proof.
  split; [|split].
  - intros st m Hc. unfold process_message. rewrite Hc, lookup_insert_eq. simpl.
    by rewrite lookup_insert_ne.
  - intros msgs st H. apply for_each_messages_structure in H as (outs & _ & Hall).
    induction Hall as [|m out msgs outs (role & parts & Hr & _) _ IH]; constructor; by eauto.
  - intros st m s Hr Hc. unfold process_message. rewrite Hc. simpl.
    rewrite text_block_str. simpl. by rewrite Hr.
Qed.

End Coverage.

(** ** The tokenizer *)

Section Tokenizers.

Variable tokenizer tokenizer' : string → nat.
Variable server : request → result response.
Variable self : Pipeline.
Variable join_parts : list value → string.

#[local] Arguments cache_check : simpl never.

Lemma cache_check_other (tok : string → nat) (model_id : string) (t : value) :
  model_id ≠ caching_model → cache_check tok model_id t = Ok false.
Proof. intros Hne. unfold cache_check. apply String.eqb_neq in Hne. by rewrite Hne. Qed.

Lemma process_item_tokenizer (model_id : string) (st : locals) (item : value) :
  model_id ≠ caching_model →
  process_item tokenizer model_id st item = process_item tokenizer' model_id st item.
Proof.
  intros Hne. unfold process_item, text_block.
  destruct (getitem item "type") as [ty|]; simpl; [|done].
  destruct (eq_str ty "text"); [|done].
  destruct (getitem item "text") as [t|]; simpl; [|done].
  by rewrite !(cache_check_other _ _ _ Hne).
Qed.

Lemma process_message_tokenizer (model_id : string) (st : locals) (m : gmap string value) :
  model_id ≠ caching_model →
  process_message tokenizer model_id st m = process_message tokenizer' model_id st m.
Proof.
  intros Hne. unfold process_message, text_block.
  destruct (m !! "content") as [[| | | | |items|]|];
    rewrite ?(cache_check_other _ _ _ Hne); try done.
  by rewrite (for_each_ext _ _ _ _ (λ s x, process_item_tokenizer model_id s x Hne)).
Qed.

(** X5.  For a model other than the caching model the tokenizer plays no
    part: [pipe] gives the same result whatever the tokenizer, and a text part
    is passed on unmarked whatever its text is, string or not. *)
Theorem tokenizer_only_for_caching_model (model_id : string) :
  model_id ≠ caching_model →
  (∀ user_message messages body w,
      pipe tokenizer server self join_parts user_message model_id messages body w
      = pipe tokenizer' server self join_parts user_message model_id messages body w) ∧
  (∀ st (item : gmap string value) t,
      item !! "type" = Some (VStr "text") → item !! "text" = Some t →
      process_item tokenizer model_id st (VDict item)
      = Ok (append_content (text_part t false) st)).
Proof.
  intros Hne. split.
  - intros user_message messages body w. unfold pipe, prepare, normalize.
    destruct (pop_system_message join_parts messages) as [system_message rest].
    by rewrite (for_each_ext _ _ _ _ (λ s x, process_message_tokenizer model_id s x Hne)).
  - intros st item t Hty Ht. unfold process_item, text_block. simpl.
    rewrite Hty. simpl. rewrite Ht. simpl. by rewrite (cache_check_other _ _ _ Hne).
Qed.

End Tokenizers.

(** ** The event loop on any stream *)

Lemma getitem_raises (v : value) (k : string) (e : exn) :
  getitem v k = Raise e → e = KeyError (KStr k) ∨ ∃ msg, e = TypeError msg.
Proof.
  destruct v as [| | | | | |d]; simpl; try (intros [= <-]; by eauto).
  destruct (d !! k); [done|]. intros [= <-]. by left.
Qed.

Lemma on_event_raises (d : value) (e : exn) :
  on_event d = Raise e → (∃ k, e = KeyError k) ∨ ∃ msg, e = TypeError msg.
Proof.
  assert (∀ v k e', getitem v k = Raise e' →
            (∃ k, e' = KeyError k) ∨ ∃ msg, e' = TypeError msg) as Hget.
  { intros v k e' [->|?]%getitem_raises; by eauto. }
  unfold on_event. destruct (getitem d "type") as [ty|e0] eqn:Hty; simpl;
    [|intros [= <-]; by eapply Hget].
  destruct (eq_str ty "content_block_start").
  { destruct (getitem d "content_block") as [cb|e0] eqn:H1; simpl;
      [|intros [= <-]; by eapply Hget].
    destruct (getitem cb "text") as [t|e0] eqn:H2; simpl; [done|].
    intros [= <-]. by eapply Hget. }
  destruct (eq_str ty "content_block_delta").
  { destruct (getitem d "delta") as [cb|e0] eqn:H1; simpl;
      [|intros [= <-]; by eapply Hget].
    destruct (getitem cb "text") as [t|e0] eqn:H2; simpl; [done|].
    intros [= <-]. by eapply Hget. }
  by destruct (eq_str ty "message_stop").
Qed.

(** X13.  Whatever the events, the loop of [stream_response] only adds to
    what was printed and yields at most one fragment per event, and the
    exception that ends it, if one does, is never one its handlers take: a
    [KeyError] or a [JSONDecodeError] never reaches the consumer. *)
Theorem events_loop_bounds (evs : list sse_event) (out : list log_line) :
  (∃ lines, (events_loop evs out).1 = out ++ lines) ∧
  length (yielded (events_loop evs out).2) ≤ length evs ∧
  (∀ e, raised (events_loop evs out).2 = Some e →
      (∀ k, e ≠ KeyError k) ∧ (∀ msg, e ≠ JSONDecodeError msg)).
Proof.
  revert out. induction evs as [|event evs IH]; intros out; simpl.
  { split; [exists []; by rewrite app_nil_r|]. split; [lia|done]. }
  assert (∀ lines,
    (∃ lines', (events_loop evs (out ++ lines)).1 = out ++ lines') ∧
    length (yielded (events_loop evs (out ++ lines)).2) ≤ S (length evs) ∧
    (∀ e, raised (events_loop evs (out ++ lines)).2 = Some e →
       (∀ k, e ≠ KeyError k) ∧ (∀ msg, e ≠ JSONDecodeError msg)))
    as Hnext.
  { intros lines. destruct (IH (out ++ lines)) as ([lines' Hl] & Hn & He).
    split; [exists (lines ++ lines'); by rewrite Hl, app_assoc|]. split; [lia|done]. }
  assert (∀ r : list log_line * drained,
            r = (out, Drained [] None) →
            (∃ lines, r.1 = out ++ lines) ∧
            length (yielded r.2) ≤ S (length evs) ∧
            (∀ e, raised r.2 = Some e →
               (∀ k, e ≠ KeyError k) ∧ (∀ msg, e ≠ JSONDecodeError msg))) as Hstop.
  { intros r ->. simpl. split; [exists []; by rewrite app_nil_r|]. split; [lia|done]. }
  assert (∀ e : exn,
            (∀ k, e ≠ KeyError k) → (∀ msg, e ≠ JSONDecodeError msg) →
            let r := (out, Drained [] (Some e)) in
            (∃ lines, r.1 = out ++ lines) ∧
            length (yielded r.2) ≤ S (length evs) ∧
            (∀ e, raised r.2 = Some e →
               (∀ k, e ≠ KeyError k) ∧ (∀ msg, e ≠ JSONDecodeError msg))) as Hends.
  { intros e Hk Hj. simpl. split; [exists []; by rewrite app_nil_r|]. split; [lia|].
    by intros e' [= <-]. }
  destruct (loads event) as [msg|d|msg|msg]; [apply Hnext| |by apply Hends..].
  destruct (on_event d) as [[|fragment|]|e] eqn:Hd.
  - destruct (Hnext []) as (Hl & Hn & He). rewrite app_nil_r in Hl, Hn, He. done.
  - destruct (IH out) as (Hl & Hn & He). simpl. split; [done|]. split; [lia|done].
  - by apply Hstop.
  - apply on_event_raises in Hd as [[k ->]|[msg ->]]; [apply Hnext|].
    by apply Hends.
Qed.

Lemma emit_first_nil (r : list log_line * drained) : emit_first [] r = r.
Proof. by destruct r as [o [y e]]. Qed.

(** X14.  Streams compose: after well-formed events none of which is a
    [message_stop], the loop goes on with the rest, and what it yields is the
    texts of those events followed by what the rest yields, with the prints and
    the ending of the rest. *)
Theorem events_loop_app (pre post : list sse_event) (ks : list event_kind)
    (out : list log_line) :
  Forall2 (λ event k, kind_of event = Some k) pre ks →
  MessageStop ∉ ks →
  events_loop (pre ++ post) out
  = emit_first (VStr <$> omap carried_text ks) (events_loop post out).
Proof.
  induction 1 as [|event k pre ks Hk _ IH]; intros Hstop.
  - simpl. by rewrite emit_first_nil.
  - apply not_elem_of_cons in Hstop as [Hne Hstop]. specialize (IH Hstop).
    rewrite <- app_comm_cons, (events_loop_kind _ _ _ _ Hk), IH.
    by destruct k.
Qed.

(** ** The listed models *)

(** X15.  [pipelines] lists the models of [get_anthropic_models], each with
    a string identifier, no two alike; none of them is the caching model, so
    for a listed model the cache check is false on every text and no part is
    ever marked. *)
Theorem listed_models_never_cached :
  pipelines = get_anthropic_models ∧
  length model_ids = length pipelines ∧
  NoDup model_ids ∧
  Forall (λ i, ∀ (tokenizer : string → nat) (t : value),
               cache_check tokenizer i t = Ok false) model_ids.
Proof.
  split; [done|]. split; [done|].
  assert (model_ids = ["claude-3-7-sonnet-latest"; "claude-sonnet-4-20250514";
                       "claude-opus-4-20250514"]) as -> by reflexivity.
  split; [apply (bool_decide_unpack _); by vm_compute|].
  rewrite !Forall_cons. split; [|split; [|split; [|done]]];
    intros tokenizer t; by apply cache_check_other.
Qed.

(** ** Headers and valves *)

Lemma run_fields (self : instance) (ops : list lifecycle) :
  self_type (foldl step self ops) = self_type self ∧
  self_id (foldl step self ops) = self_id self ∧
  self_name (foldl step self ops) = self_name self ∧
  self_url (foldl step self ops) = self_url self.
Proof.
  revert self. induction ops as [|o ops IH]; intros self; simpl; [done|].
  destruct (IH (step self o)) as (-> & -> & -> & ->). by destruct o.
Qed.

Lemma run_headers (self : instance) (ops : list lifecycle) :
  (∃ v, self_headers self = headers v) →
  ∃ v, self_headers (foldl step self ops) = headers v.
Proof.
  revert self. induction ops as [|o ops IH]; intros self; simpl; [done|].
  intros Hv. apply IH. destruct o; simpl; [done|by eexists].
Qed.

Lemma run_notices (self : instance) (ops : list lifecycle) :
  self_headers self = headers (self_valves self) →
  Forall (λ o, o = ValvesUpdated) ops →
  foldl step self ops = self.
Proof.
  intros Hsync. induction 1 as [|o ops -> _ IH]; simpl; [done|].
  replace (on_valves_updated self) with self; [done|].
  destruct self. simpl in Hsync. by rewrite Hsync.
Qed.

(** X16.  Through any sequence of valve assignments and update notices
    after [__init__], the type, the identifier, the name and the URL of the
    pipeline stay what [__init__] made them and the headers are those of some
    key.  Notices alone change nothing; an assignment leaves the headers as
    they were, the old key still in them, until a notice makes them those of
    the current valves. *)
Theorem headers_follow_valves (env : option string) (ops : list lifecycle) :
  let self := foldl step (init env) ops in
  self_type self = "manifold" ∧ self_id self = "anthropic" ∧
  self_name self = "anthropic/" ∧ self_url self = url ∧
  (∃ v, self_headers self = headers v) ∧
  (Forall (λ o, o = ValvesUpdated) ops → self = init env) ∧
  self_headers (step self ValvesUpdated) = headers (self_valves self) ∧
  (∀ v, self_headers (step self (SetValves v)) = self_headers self ∧
        self_headers (step (step self (SetValves v)) ValvesUpdated) = headers v).
Proof.
  simpl. destruct (run_fields (init env) ops) as (-> & -> & -> & ->).
  split; [done|]. split; [done|]. split; [done|]. split; [done|].
  split; [apply run_headers; by eexists|].
  split; [by apply run_notices|]. done.
Qed.

(** ** The further properties at concrete inputs *)

Lemma process_image_data_uri_witness :
  process_image (VDict {[ "url" := VStr "data:image/png;base64,AAAA,BB" ]})
  = Ok (image_block (base64_source "image/png" "AAAA,BB")).
Proof.
  apply (process_image_data_uri _ "image/png" ";base64" "AAAA,BB");
    [reflexivity..|right; reflexivity].
Defined.

Lemma normalize_structure_witness :
  ∃ st, normalize char_tokenizer current_model five_images = Ok st ∧
        Forall2 (message_matches char_tokenizer current_model) five_images
                (processed_messages st).
Proof.
  destruct (normalize char_tokenizer current_model five_images) as [st|e] eqn:H;
    [|vm_compute in H; discriminate H].
  exists st. split; [reflexivity|]. by apply normalize_structure.
Defined.

Lemma normalize_within_limits_witness :
  ∃ st, normalize char_tokenizer current_model five_images = Ok st ∧
        image_count st = 5.
Proof.
  destruct (normalize char_tokenizer current_model five_images) as [st|e] eqn:H;
    [|vm_compute in H; discriminate H].
  exists st. split; [reflexivity|].
  by destruct (normalize_within_limits char_tokenizer current_model five_images st H)
    as (_ & _ & -> & _).
Defined.

Lemma tokenizer_only_for_caching_model_witness :
  current_model ≠ caching_model ∧
  pipe char_tokenizer greeting default_self concat_texts
       "hi" current_model five_images ∅ (World [] [])
  = pipe no_tokens greeting default_self concat_texts
         "hi" current_model five_images ∅ (World [] []).
Proof.
  assert (current_model ≠ caching_model) as Hne by (intros H; discriminate H).
  split; [exact Hne|].
  destruct (tokenizer_only_for_caching_model char_tokenizer no_tokens greeting
              default_self concat_texts current_model Hne) as [Hpipe _].
  apply Hpipe.
Defined.

Lemma pipe_reads_six_options_witness :
  let body : gmap string value := {[ "max_tokens" := VInt 10; "session" := VStr "s1" ]} in
  let body' : gmap string value := {[ "max_tokens" := VInt 10 ]} in
  Forall (λ k, body !! k = body' !! k) option_keys ∧
  (pipe char_tokenizer greeting default_self concat_texts
        "hi" current_model five_images body (World [] [])).2
  = (pipe char_tokenizer greeting default_self concat_texts
          "hi" current_model five_images body' (World [] [])).2.
Proof.
  intros body body'.
  assert (Forall (λ k, body !! k = body' !! k) option_keys) as Hagree
    by (repeat constructor).
  split; [exact Hagree|].
  by destruct (pipe_reads_six_options char_tokenizer greeting default_self concat_texts
                 "hi" current_model five_images body body' (World [] []) Hagree)
    as [_ ?].
Defined.

Lemma completion_end_to_end_witness :
  let payload :=
    make_payload current_model None
                 [normalized (VStr "user") [text_part (VStr "hi") false]] ∅ in
  pipe char_tokenizer greeting default_self concat_texts
       "hi" current_model [user_says (VStr "hi")] ∅ (World [] [])
  = (World [Request url (headers default_self) payload false] [], pop_keys ∅,
     Value (VStr "Hello world")).
Proof.
  intros payload.
  assert (prepare char_tokenizer concat_texts current_model [user_says (VStr "hi")]
                  (pop_keys ∅) = Ok payload) as Hprep by (vm_compute; reflexivity).
  destruct (completion_end_to_end char_tokenizer greeting default_self concat_texts
              "hi" current_model [user_says (VStr "hi")] ∅ payload (World [] [])
              Hprep eq_refl) as [Hok _].
  eapply Hok; reflexivity.
Defined.

Lemma stream_end_to_end_witness :
  let body : gmap string value := {[ "stream" := VBool true ]} in
  let payload :=
    make_payload current_model None
                 [normalized (VStr "user") [text_part (VStr "hi") false]] body in
  (drain greeting default_self (Generator payload) (World [] [])).2
  = Drained [VStr "Hello"; VStr " world"] None.
Proof.
  intros body payload.
  assert (prepare char_tokenizer concat_texts current_model [user_says (VStr "hi")]
                  (pop_keys body) = Ok payload) as Hprep by (vm_compute; reflexivity).
  pose proof (λ resp, stream_end_to_end char_tokenizer greeting default_self concat_texts
                "hi" current_model [user_says (VStr "hi")] body payload (World [] []) resp
                [ContentBlockStart "Hello"; ContentBlockDelta " world"; MessageStop]
                Hprep eq_refl) as Hstream.
  edestruct Hstream as [_ Hdrain]; [reflexivity|reflexivity|repeat constructor|].
  rewrite Hdrain. reflexivity.
Defined.

Lemma completion_failures_witness :
  (get_completion garbled default_self ∅ (World [] [])).2
  = Raise (JSONDecodeError "Expecting value: line 1 column 1 (char 0)").
Proof.
  edestruct (completion_failures garbled default_self ∅ (World [] [])) as [Hjson _];
    [reflexivity..|].
  by apply Hjson.
Defined.

Lemma events_loop_app_witness :
  events_loop ([SSE "..." (JSON (content_block_start "Hello"));
                SSE "..." (JSON (content_block_delta " world"))]
               ++ [SSE "..." (JSON message_stop)]) []
  = ([], Drained [VStr "Hello"; VStr " world"] None).
Proof.
  rewrite (events_loop_app _ _ [ContentBlockStart "Hello"; ContentBlockDelta " world"]);
    [reflexivity|repeat constructor|].
  intros H. repeat (apply elem_of_cons in H as [H|H]; [discriminate H|]).
  by apply elem_of_nil in H.
Defined.
